(** * xslog: a slog.Handler over zerolog, and its ambient field store

    A shallow embedding of [zerolog.go] and [context.go].  Go slices are
    modelled with their backing arrays in an explicit memory, nil-able
    pointers as [option], panics and non-termination as outcomes of a small
    result monad. *)

From Stdlib Require Import ZArith Lia.
From stdpp Require Import base list strings.

Set Warnings "-register-all".

Local Open Scope string_scope.
Local Open Scope list_scope.
Local Open Scope Z_scope.

(** * The model *)

(** ** Outcomes of a Go call *)

(** [Ret] is a normal return, [Panic] a run-time panic, [OutOfFuel] says the
    recursion budget of the model was too small to see the call return. *)
Inductive result (A : Type) : Type :=
| Ret (a : A)
| Panic
| OutOfFuel.
Arguments Ret {A} a.
Arguments Panic {A}.
Arguments OutOfFuel {A}.

Definition rbind {A B : Type} (c : result A) (k : A -> result B) : result B :=
  match c with
  | Ret a => k a
  | Panic => Panic
  | OutOfFuel => OutOfFuel
  end.

Notation "'let*' p ':=' c 'in' k" := (rbind c (fun p => k))
  (at level 10, p pattern, c at level 100, k at level 200).

(** A left-to-right loop whose body may fail. *)
Fixpoint foldM {A B : Type} (f : B -> A -> result B) (l : list A) (b : B) : result B :=
  match l with
  | [] => Ret b
  | a :: l' => let* b' := f b a in foldM f l' b'
  end.

(** The same loop, collecting results. *)
Fixpoint mapM {A B : Type} (f : A -> result B) (l : list A) : result (list B) :=
  match l with
  | [] => Ret []
  | a :: l' => let* b := f a in let* bs := mapM f l' in Ret (b :: bs)
  end.

(** ** The front end: slog values, attributes and records *)

(** An [error] held in an interface, as [Event.AnErr] of the sink looks at
    it: one whose value is nil (a nil pointer of an error type, say) and for
    which it sets no field, or an error it sets a field for, with its
    message. *)
Inductive errorValue : Type :=
| nilValuedError
| errorString (msg : string).

(** What an [any] holds, as far as the handler looks: nil, an [error], or
    something else. *)
Inductive any : Type :=
| anyNil
| anyError (err : errorValue)
| anyOther (repr : string).

(** [time.Time]: an instant counted from the zero time, and a location. *)
Record Time : Type := mkTime { instant : Z; location : string }.

Definition Time_IsZero (t : Time) : bool := instant t =? 0.
Definition Time_UTC (t : Time) : Time := {| instant := instant t; location := "UTC" |}.

(** A [slog.LogValuer] is an object with a [LogValue] method; the model names
    the object and keeps the method in a table (the section variable
    [LogValue] below). *)
Definition LogValuer : Type := nat.

Record Attr_ (V : Type) : Type := mkAttr { Key : string; Val : V }.
Arguments mkAttr {V} Key Val.
Arguments Key {V} a.
Arguments Val {V} a.

(** [slog.Value], one constructor per [slog.Kind].  A float64 is kept as its
    bit pattern. *)
Inductive Value : Type :=
| AnyValue (a : any)
| BoolValue (b : bool)
| DurationValue (d : Z)
| Float64Value (bits : Z)
| Int64Value (i : Z)
| StringValue (s : string)
| TimeValue (t : Time)
| Uint64Value (u : Z)
| GroupValue (g : list (Attr_ Value))
| LogValuerValue (v : LogValuer).

Definition Attr : Type := Attr_ Value.

(** The zero [slog.Value] has kind Any and holds nil; [slog.Attr{}] pairs it
    with the empty key. *)
Definition zeroValue : Value := AnyValue anyNil.
Definition zeroAttr : Attr := mkAttr "" zeroValue.

Definition slog_Int (key : string) (v : Z) : Attr := mkAttr key (Int64Value v).
Definition slog_String (key : string) (v : string) : Attr := mkAttr key (StringValue v).

(** [slog.Level] is an int; the four named levels. *)
Definition LevelDebug : Z := -4.
Definition LevelInfo : Z := 0.
Definition LevelWarn : Z := 4.
Definition LevelError : Z := 8.

Record Record_ : Type := mkRecord {
  rTime : Time;
  Message : string;
  Level : Z;
  PC : Z;
  Attrs : list Attr
}.

(** ** The sink: zerolog events at their boundary *)

Inductive zLevel : Type :=
| zTraceLevel | zDebugLevel | zInfoLevel | zWarnLevel | zErrorLevel
| zFatalLevel | zPanicLevel | zNoLevel | zDisabled.

Definition zLevel_eqb (a b : zLevel) : bool :=
  match a, b with
  | zTraceLevel, zTraceLevel | zDebugLevel, zDebugLevel | zInfoLevel, zInfoLevel
  | zWarnLevel, zWarnLevel | zErrorLevel, zErrorLevel | zFatalLevel, zFatalLevel
  | zPanicLevel, zPanicLevel | zNoLevel, zNoLevel | zDisabled, zDisabled => true
  | _, _ => false
  end.

(** One typed field setter call on an event builder. *)
Inductive Field : Type :=
| FBool (key : string) (b : bool)
| FInt64 (key : string) (i : Z)
| FUint64 (key : string) (u : Z)
| FFloat64 (key : string) (bits : Z)
| FDur (key : string) (d : Z)
| FTime (key : string) (t : Time)
| FStr (key : string) (s : string)
| FAnErr (key : string) (err : string)
| FAny (key : string) (a : any)
| FDict (key : string) (dict : list Field).

(** A [zerolog.Event]: its level, the fields set so far in call order, and
    the caller frames to skip. *)
Record Event : Type := mkEvent { elevel : zLevel; buf : list Field; skipFrame : Z }.

Definition addField (e : Event) (f : Field) : Event :=
  {| elevel := elevel e; buf := buf e ++ [f]; skipFrame := skipFrame e |}.

(** [zerolog.Dict()] *)
Definition Dict : Event := {| elevel := zDebugLevel; buf := []; skipFrame := 0 |}.

Definition Event_Dict (e : Event) (key : string) (dict : Event) : Event :=
  addField e (FDict key (buf dict)).
Definition Event_Bool (e : Event) (key : string) (b : bool) : Event := addField e (FBool key b).
Definition Event_Int64 (e : Event) (key : string) (i : Z) : Event := addField e (FInt64 key i).
Definition Event_Uint64 (e : Event) (key : string) (u : Z) : Event := addField e (FUint64 key u).
Definition Event_Float64 (e : Event) (key : string) (f : Z) : Event := addField e (FFloat64 key f).
Definition Event_Dur (e : Event) (key : string) (d : Z) : Event := addField e (FDur key d).
Definition Event_Time (e : Event) (key : string) (t : Time) : Event := addField e (FTime key t).
Definition Event_Str (e : Event) (key : string) (s : string) : Event := addField e (FStr key s).
(** [Event.AnErr], with [zerolog.ErrorMarshalFunc] at its default: the event
    as it is for an error whose value is nil, one field for any other. *)
Definition Event_AnErr (e : Event) (key : string) (err : errorValue) : Event :=
  match err with
  | nilValuedError => e
  | errorString msg => addField e (FAnErr key msg)
  end.
Definition Event_Any (e : Event) (key : string) (a : any) : Event := addField e (FAny key a).
Definition Event_CallerSkipFrame (e : Event) (skip : Z) : Event :=
  {| elevel := elevel e; buf := buf e; skipFrame := skipFrame e + skip |}.

(** [Event.Enabled], on a nil-able event: [e != nil && e.level != Disabled]. *)
Definition Event_Enabled (e : option Event) : bool :=
  match e with
  | Some ev => negb (zLevel_eqb (elevel ev) zDisabled)
  | None => false
  end.

(** What the sink received from a terminal call: [Send()] carries no message,
    [Msg(s)] carries [s]. *)
Record Emitted : Type := mkEmitted { ev : Event; msg : option string }.

(** The logger, seen through its level gate. *)
Record Logger : Type := mkLogger { should : zLevel -> bool }.

(** [l.Debug()], [l.Info()], ...: nil when the level is gated off. *)
Definition newEvent (l : Logger) (lvl : zLevel) : option Event :=
  if should l lvl then Some {| elevel := lvl; buf := []; skipFrame := 0 |} else None.

Definition Logger_Debug (l : Logger) : option Event := newEvent l zDebugLevel.
Definition Logger_Info (l : Logger) : option Event := newEvent l zInfoLevel.
Definition Logger_Warn (l : Logger) : option Event := newEvent l zWarnLevel.
Definition Logger_Error (l : Logger) : option Event := newEvent l zErrorLevel.

(** [zerolog.TimestampFieldName], at its default. *)
Definition TimestampFieldName : string := "time".

(** ** Value-kind projection *)

Section Projection.

(** The [LogValue] method of every valuer. *)
Variable LogValue : LogValuer -> Value.

(** [appendAttrToEvent], zerolog.go:259.  Each call spends one unit of fuel. *)
Fixpoint appendAttrToEvent (fuel : nat) (attr : Attr) (event : Event) : result Event :=
  match fuel with
  | O => OutOfFuel
  | S fuel' =>
    match Val attr with
    | GroupValue group =>
        let* dict := foldM (fun dict groupAttr => appendAttrToEvent fuel' groupAttr dict) group Dict in
        Ret (Event_Dict event (Key attr) dict)
    | LogValuerValue v =>
        let out := mkAttr (Key attr) (LogValue v) in
        appendAttrToEvent fuel' out event
    | BoolValue b => Ret (Event_Bool event (Key attr) b)
    | Int64Value i => Ret (Event_Int64 event (Key attr) i)
    | Uint64Value u => Ret (Event_Uint64 event (Key attr) u)
    | Float64Value f => Ret (Event_Float64 event (Key attr) f)
    | DurationValue d => Ret (Event_Dur event (Key attr) d)
    | TimeValue t => Ret (Event_Time event (Key attr) t)
    | StringValue s => Ret (Event_Str event (Key attr) s)
    | AnyValue a =>
        match a with
        | anyError terr => Ret (Event_AnErr event (Key attr) terr)
        | _ => Ret (Event_Any event (Key attr) a)
        end
    end
  end.

(** [collections.ForEach(attrs, func(a) { event = appendAttrToEvent(a, event) })] *)
Definition appendAttrs (fuel : nat) (attrs : list Attr) (event : Event) : result Event :=
  foldM (fun e a => appendAttrToEvent fuel a e) attrs event.

End Projection.

(** ** Memory: slices and their backing arrays *)

(** A slice header.  Every slice of this program starts at the head of its
    backing array; [ptr] is the array's address. *)
Record slice : Type := mkSlice { ptr : nat; len : nat; cap : nat }.

Definition nilSlice : slice := mkSlice 0 0 0.

Section Arrays.

Context {A : Type}.
Variable zero : A.

(** [make([]A, n, c)]: a fresh array of [c] zero values. *)
Definition make (n c : nat) (arrs : list (list A)) : result (slice * list (list A)) :=
  if (c <? n)%nat then Panic
  else Ret (mkSlice (length arrs) n c, arrs ++ [replicate c zero]).

(** The elements [s[0:len(s)]]. *)
Definition readSlice (s : slice) (arrs : list (list A)) : result (list A) :=
  if (len s =? 0)%nat then Ret []
  else match arrs !! ptr s with
       | Some arr => if (len s <=? length arr)%nat then Ret (take (len s) arr) else Panic
       | None => Panic
       end.

(** [s[i]], with Go's bounds check. *)
Definition index (s : slice) (i : Z) (arrs : list (list A)) : result A :=
  if (0 <=? i) && (i <? Z.of_nat (len s)) then
    match arrs !! ptr s with
    | Some arr => match arr !! Z.to_nat i with Some x => Ret x | None => Panic end
    | None => Panic
    end
  else Panic.

(** [s[i] = x] *)
Definition setIndex (s : slice) (i : Z) (x : A) (arrs : list (list A)) : result (list (list A)) :=
  if (0 <=? i) && (i <? Z.of_nat (len s)) then
    match arrs !! ptr s with
    | Some arr =>
        if (Z.to_nat i <? length arr)%nat
        then Ret (<[ptr s := <[Z.to_nat i := x]> arr]> arrs)
        else Panic
    | None => Panic
    end
  else Panic.

(** [copy(dst, src)]: the first [min(len(dst), len(src))] elements. *)
Definition copy (dst : slice) (src : list A) (arrs : list (list A)) : result (list (list A)) :=
  let n := Nat.min (len dst) (length src) in
  if (n =? 0)%nat then Ret arrs
  else match arrs !! ptr dst with
       | Some arr =>
           if (n <=? length arr)%nat
           then Ret (<[ptr dst := take n src ++ drop n arr]> arrs)
           else Panic
       | None => Panic
       end.

(** [append(s, xs...)]: in place when the capacity allows, else into a fresh
    array.  The Go runtime picks the capacity of that array; the model takes
    the least, the length of the result. *)
Definition append (s : slice) (xs : list A) (arrs : list (list A)) : result (slice * list (list A)) :=
  let n := length xs in
  if (n =? 0)%nat then Ret (s, arrs)
  else if (len s + n <=? cap s)%nat then
    match arrs !! ptr s with
    | Some arr =>
        if (cap s <=? length arr)%nat
        then Ret (mkSlice (ptr s) (len s + n) (cap s),
                  <[ptr s := take (len s) arr ++ xs ++ drop (len s + n) arr]> arrs)
        else Panic
    | None => Panic
    end
  else
    let* old := readSlice s arrs in
    Ret (mkSlice (length arrs) (len s + n) (len s + n), arrs ++ [old ++ xs]).

End Arrays.

(** ** The handler *)

Record HandlerOptions : Type := mkOptions { SkipTime : bool }.

Record group : Type := mkGroup { name : string; attrs : slice }.

Definition zeroGroup : group := mkGroup "" nilSlice.

Record slogFieldsStore : Type := mkStore { fields : list Attr }.

(** Memory: the arrays behind [[]slog.Attr] and [[]group] slices, and the
    field stores that contexts point to. *)
Record mem : Type := mkMem {
  attrArrays : list (list Attr);
  groupArrays : list (list group);
  stores : list slogFieldsStore
}.

Definition emptyMem : mem := mkMem [] [] [].

Record ZerologHandler : Type := mkHandler {
  log : Logger;
  groups : slice;
  opts : HandlerOptions
}.

(** [NewZerologHandler], zerolog.go:21. *)
Definition NewZerologHandler (l : Logger) (o : option HandlerOptions) (m : mem)
  : result (ZerologHandler * mem) :=
  let copied := match o with Some o' => o' | None => mkOptions false end in
  let* (gs, garrs) := make zeroGroup 1 1 (groupArrays m) in
  Ret (mkHandler l gs copied, mkMem (attrArrays m) garrs (stores m)).

(** One turn of the loop of [clone], for [i, g := range h.groups]. *)
Definition cloneGroup (newGroups : slice) (lastID : Z) (addSizeCap : nat)
    (m : mem) (i : nat) (g : group) : result mem :=
  let capValue := (len (attrs g) + (if Z.eqb lastID (Z.of_nat i) then addSizeCap else 0))%nat in
  let* (a, aarrs) := make zeroAttr (len (attrs g)) capValue (attrArrays m) in
  let* garrs := setIndex newGroups (Z.of_nat i) (mkGroup (name g) a) (groupArrays m) in
  let* src := readSlice (attrs g) aarrs in
  let* aarrs' := copy a src aarrs in
  Ret (mkMem aarrs' garrs (stores m)).

(** The loop of [clone] from index [i] on. *)
Fixpoint cloneGroups (newGroups : slice) (lastID : Z) (addSizeCap : nat)
    (i : nat) (hgroups : list group) (m : mem) : result mem :=
  match hgroups with
  | [] => Ret m
  | g :: rest =>
      let* m' := cloneGroup newGroups lastID addSizeCap m i g in
      cloneGroups newGroups lastID addSizeCap (S i) rest m'
  end.

(** [clone], zerolog.go:235.  The loop writes fresh arrays only, so the groups
    of [h] are read once before it. *)
Definition clone (h : ZerologHandler) (addGroupsCap addSizeCap : nat) (m : mem)
  : result (ZerologHandler * mem) :=
  let* (gs, garrs) := make zeroGroup (len (groups h)) (len (groups h) + addGroupsCap)%nat
                     (groupArrays m) in
  let m1 := mkMem (attrArrays m) garrs (stores m) in
  let lastID := Z.of_nat (len (groups h)) - 1 in
  let* hgroups := readSlice (groups h) (groupArrays m1) in
  let* m2 := cloneGroups gs lastID addSizeCap 0 hgroups m1 in
  Ret (mkHandler (log h) gs (opts h), m2).

(** [WithAttrs], zerolog.go:192. *)
Definition WithAttrs (h : ZerologHandler) (attrs_ : list Attr) (m : mem)
  : result (ZerologHandler * mem) :=
  let* (newh, m1) := clone h 0 (length attrs_) m in
  let lastGroupIDx := Z.of_nat (len (groups newh)) - 1 in
  let* g := index (groups newh) lastGroupIDx (groupArrays m1) in
  let* (a, aarrs) := append (attrs g) attrs_ (attrArrays m1) in
  let* garrs := setIndex (groups newh) lastGroupIDx (mkGroup (name g) a) (groupArrays m1) in
  Ret (newh, mkMem aarrs garrs (stores m1)).

(** [WithGroup], zerolog.go:222. *)
Definition WithGroup (h : ZerologHandler) (name_ : string) (m : mem)
  : result (ZerologHandler * mem) :=
  if String.eqb name_ "" then Ret (h, m)
  else
    let* (newh, m1) := clone h 1 0 m in
    let* (gs, garrs) := append (groups newh) [mkGroup name_ nilSlice] (groupArrays m1) in
    Ret (mkHandler (log newh) gs (opts newh), mkMem (attrArrays m1) garrs (stores m1)).

(** The group sequence a handler holds: names and attribute lists, outermost
    first. *)
Definition readGroup (m : mem) (g : group) : result (string * list Attr) :=
  let* l := readSlice (attrs g) (attrArrays m) in Ret (name g, l).

Definition readGroups (h : ZerologHandler) (m : mem) : result (list (string * list Attr)) :=
  let* gs := readSlice (groups h) (groupArrays m) in mapM (readGroup m) gs.

(** ** The ambient field store (context.go) *)

(** Keys a context can bind.  [context.WithValue] panics on a key that is not
    comparable, so only comparable key values occur in a context:
    [logFieldsCtxKey{}] and the keys of other packages. *)
Inductive ctxKey : Type :=
| logFieldsCtxKey
| otherKey (id : string).

(** Keys a lookup can ask for: any interface value.  [slogFieldsStore{}] is a
    struct with a slice field, hence of a type no context key has. *)
Inductive anyKey : Type :=
| comparableKey (k : ctxKey)
| slogFieldsStoreKey.

Inductive ctxVal : Type :=
| storePtr (p : nat)
| otherVal (repr : string).

(** The contexts of the context package: [context.Background()] and
    [context.WithValue] on one of them. *)
Inductive Context : Type :=
| Background
| valueCtx (parent : Context) (key : ctxKey) (val : ctxVal).

Definition ctxKey_eqb (a b : ctxKey) : bool :=
  match a, b with
  | logFieldsCtxKey, logFieldsCtxKey => true
  | otherKey x, otherKey y => String.eqb x y
  | _, _ => false
  end.

(** [c.key == key] on interface values: equal dynamic types and equal
    values. *)
Definition iface_eq (bound : ctxKey) (key : anyKey) : bool :=
  match key with
  | comparableKey k => ctxKey_eqb bound k
  | slogFieldsStoreKey => false
  end.

(** [ctx.Value(key)]: the innermost binding of [key]. *)
Fixpoint Context_Value (ctx : Context) (key : anyKey) : option ctxVal :=
  match ctx with
  | Background => None
  | valueCtx parent k v => if iface_eq k key then Some v else Context_Value parent key
  end.

Definition context_WithValue (parent : Context) (key : ctxKey) (val : ctxVal) : Context :=
  valueCtx parent key val.

(** [slogFieldsFromContext], context.go:33: the lookup key is
    [slogFieldsStore{}], the assertion keeps a [*slogFieldsStore]. *)
Definition slogFieldsFromContext (ctx : Context) : option nat :=
  match Context_Value ctx slogFieldsStoreKey with
  | Some (storePtr p) => Some p
  | _ => None
  end.

(** [WithSlogFields], context.go:18. *)
Definition WithSlogFields (ctx : Context) (attrs_ : list Attr) (m : mem)
  : result (Context * mem) :=
  match slogFieldsFromContext ctx with
  | None =>
      let existingStore := length (stores m) in
      Ret (context_WithValue ctx logFieldsCtxKey (storePtr existingStore),
           mkMem (attrArrays m) (groupArrays m) (stores m ++ [mkStore attrs_]))
  | Some existingStore =>
      match stores m !! existingStore with
      | Some st =>
          Ret (ctx, mkMem (attrArrays m) (groupArrays m)
                      (<[existingStore := mkStore (fields st ++ attrs_)]> (stores m)))
      | None => Panic
      end
  end.

(** ** Enabled and Handle *)

(** The one error of the package, [errors.New("unsupported log level " +
    record.Level.String())], kept with the level its message is built from. *)
Inductive error : Type :=
| errUnsupportedLogLevel (level : Z).

(** What a call of [Handle] did: the error it returned and the events the
    sink received. *)
Record outcome : Type := mkOut { err : option error; sent : list Emitted }.

(** [int(record.PC)] on a 64-bit word. *)
Definition int_of_uintptr (pc : Z) : Z := if pc <? 2 ^ 63 then pc else pc - 2 ^ 64.

(** [Enabled], zerolog.go:56. *)
Definition Enabled (h : ZerologHandler) (ctx : Context) (level : Z) : bool :=
  if level =? LevelDebug then Event_Enabled (Logger_Debug (log h))
  else if level =? LevelInfo then Event_Enabled (Logger_Info (log h))
  else if level =? LevelWarn then Event_Enabled (Logger_Warn (log h))
  else if level =? LevelError then Event_Enabled (Logger_Error (log h))
  else false.

Section Handler.

Variable LogValue : LogValuer -> Value.

(** The loop of [Handle], zerolog.go:131, over the groups from the innermost
    outward; [innermost] is [i == lastIDx]. *)
Fixpoint walk (fuel : nat) (ctx : Context) (record : Record_) (m : mem)
    (gs : list (string * list Attr)) (innermost : bool)
    (event : Event) (prev : option Event) (prevName : string)
  : result (Event * option Event * string) :=
  match gs with
  | [] => Ret (event, prev, prevName)
  | current :: outer =>
    if String.eqb (fst current) "" then
      let* event := appendAttrs LogValue fuel (snd current) event in
      let* event := if innermost then appendAttrs LogValue fuel (Attrs record) event
                    else Ret event in
      let* event :=
        match slogFieldsFromContext ctx with
        | Some p =>
            match stores m !! p with
            | Some store =>
                if (0 <? length (fields store))%nat
                then appendAttrs LogValue fuel (fields store) event
                else Ret event
            | None => Panic
            end
        | None => Ret event
        end in
      Ret (event, prev, prevName)
    else
      let* groupAttrs := appendAttrs LogValue fuel (snd current) Dict in
      let* groupAttrs := if innermost then appendAttrs LogValue fuel (Attrs record) groupAttrs
                         else Ret groupAttrs in
      let groupAttrs := match prev with
                        | Some p => Event_Dict groupAttrs prevName p
                        | None => groupAttrs
                        end in
      walk fuel ctx record m outer false event (Some groupAttrs) (fst current)
  end.

(** [Handle] from zerolog.go:119 on, for the enabled event [event].  [Handle]
    writes no memory, so the groups are read once, before the loop. *)
Definition handleEvent (fuel : nat) (h : ZerologHandler) (ctx : Context) (record : Record_)
    (m : mem) (event : Event) : result outcome :=
  let event :=
    if negb (SkipTime (opts h)) && negb (Time_IsZero (rTime record))
    then Event_Time event TimestampFieldName (Time_UTC (rTime record))
    else event in
  let event :=
    if negb (PC record =? 0)
    then Event_CallerSkipFrame event (int_of_uintptr (PC record))
    else event in
  let* gs := readGroups h m in
  let* (event, prev, prevName) := walk fuel ctx record m (rev gs) true event None "" in
  let event :=
    match prev with
    | Some p => if negb (String.eqb prevName "") then Event_Dict event prevName p
                else event
    | None => event
    end in
  if String.eqb (Message record) ""
  then Ret (mkOut None [mkEmitted event None])
  else Ret (mkOut None [mkEmitted event (Some (Message record))]).

(** [Handle], zerolog.go:100. *)
Definition Handle (fuel : nat) (h : ZerologHandler) (ctx : Context) (record : Record_)
    (m : mem) : result outcome :=
  let event :=
    if Level record =? LevelDebug then Some (Logger_Debug (log h))
    else if Level record =? LevelInfo then Some (Logger_Info (log h))
    else if Level record =? LevelWarn then Some (Logger_Warn (log h))
    else if Level record =? LevelError then Some (Logger_Error (log h))
    else None in
  match event with
  | None => Ret (mkOut (Some (errUnsupportedLogLevel (Level record))) [])
  | Some event =>
    if negb (Event_Enabled event) then Ret (mkOut None [])
    else
      match event with
      | Some event => handleEvent fuel h ctx record m event
      | None => Ret (mkOut None [])
      end
  end.

End Handler.

(** ** Notions the properties are stated with *)

(** The four levels [Enabled] and [Handle] switch on. *)
Definition recognized (level : Z) : Prop :=
  level = LevelDebug \/ level = LevelInfo \/ level = LevelWarn \/ level = LevelError.

(** The sink level each of them is sent to. *)
Definition sinkLevel (level : Z) : option zLevel :=
  if level =? LevelDebug then Some zDebugLevel
  else if level =? LevelInfo then Some zInfoLevel
  else if level =? LevelWarn then Some zWarnLevel
  else if level =? LevelError then Some zErrorLevel
  else None.

(** The kinds that set one typed field. *)
Definition isLeaf (v : Value) : bool :=
  match v with
  | GroupValue _ | LogValuerValue _ => false
  | _ => true
  end.

Section Finiteness.

Variable LogValue : LogValuer -> Value.

(** A value whose tree is finite: groups nest and valuers resolve only
    finitely deep. *)
Inductive Finite : Value -> Prop :=
| Finite_leaf v : isLeaf v = true -> Finite v
| Finite_group g : Forall (fun a => Finite (Val a)) g -> Finite (GroupValue g)
| Finite_valuer v : Finite (LogValue v) -> Finite (LogValuerValue v).

Definition FiniteAttrs (l : list Attr) : Prop := Forall (fun a => Finite (Val a)) l.

(** Enough fuel for [v] under any key and onto any event. *)
Definition returnsFrom (n : nat) (v : Value) : Prop :=
  forall fuel k e, (n <= fuel)%nat ->
    exists e', appendAttrToEvent LogValue fuel (mkAttr k v) e = Ret e'.

(** Enough fuel for a list of attributes onto any event. *)
Definition attrsReturnFrom (n : nat) (l : list Attr) : Prop :=
  forall fuel e, (n <= fuel)%nat -> exists e', appendAttrs LogValue fuel l e = Ret e'.

End Finiteness.

(** The timestamp field [Handle] sets first, if any. *)
Definition stamp (h : ZerologHandler) (record : Record_) : list Field :=
  if negb (SkipTime (opts h)) && negb (Time_IsZero (rTime record))
  then [FTime TimestampFieldName (Time_UTC (rTime record))]
  else [].

(** [e] with the fields [fs] set after its own. *)
Definition extend (e : Event) (fs : list Field) : Event :=
  {| elevel := elevel e; buf := buf e ++ fs; skipFrame := skipFrame e |}.

Definition fieldKey (f : Field) : string :=
  match f with
  | FBool k _ | FInt64 k _ | FUint64 k _ | FFloat64 k _ | FDur k _
  | FTime k _ | FStr k _ | FAnErr k _ | FAny k _ | FDict k _ => k
  end.

(** Whether the key [k] occurs among the fields [fs], at any depth. *)
Fixpoint keyOccurs (k : string) (f : Field) : bool :=
  String.eqb (fieldKey f) k ||
  match f with
  | FDict _ dict => existsb (keyOccurs k) dict
  | _ => false
  end.

Definition mentions (k : string) (fs : list Field) : bool := existsb (keyOccurs k) fs.

(** Nothing that [m] holds in its arrays and stores was changed on the way to
    [m']: [m'] only has more arrays. *)
Definition frozen (m m' : mem) : Prop :=
  attrArrays m `prefix_of` attrArrays m' /\
  groupArrays m `prefix_of` groupArrays m' /\
  stores m = stores m'.

(** What a slice of attributes in a cloned group looks like from the arrays
    [base] that existed before: it has no capacity, or it is new. *)
Definition freshAttrs (base : list (list Attr)) (g : group) : Prop :=
  cap (attrs g) = O \/ (length base <= ptr (attrs g))%nat.

(** The state of [clone] while it fills the array of [gs]. *)
Record cloning (m0 : mem) (gs : slice) (m : mem) : Prop := mkCloning {
  cloning_attrs : attrArrays m0 `prefix_of` attrArrays m;
  cloning_groups : groupArrays m0 `prefix_of` groupArrays m;
  cloning_stores : stores m = stores m0;
  cloning_new : (length (groupArrays m0) <= ptr gs)%nat;
  cloning_fresh : forall arr, groupArrays m !! ptr gs = Some arr ->
                  Forall (freshAttrs (attrArrays m0)) arr
}.

(** What [clone] builds for the group sequence [gs], from index [i] on: the
    attribute arrays, with the spare capacity of the innermost one, and the
    groups that point to them at the addresses from [base] on. *)
Definition extraCap (lastID : Z) (addSizeCap : nat) (i : nat) : nat :=
  if Z.eqb lastID (Z.of_nat i) then addSizeCap else O.

Fixpoint clonedArrays (lastID : Z) (addSizeCap : nat) (i : nat)
    (gs : list (string * list Attr)) : list (list Attr) :=
  match gs with
  | [] => []
  | v :: rest =>
      (v.2 ++ replicate (extraCap lastID addSizeCap i) zeroAttr)
      :: clonedArrays lastID addSizeCap (S i) rest
  end.

Fixpoint clonedGroups (base : nat) (lastID : Z) (addSizeCap : nat) (i : nat)
    (gs : list (string * list Attr)) : list group :=
  match gs with
  | [] => []
  | v :: rest =>
      mkGroup v.1 (mkSlice (base + i) (length v.2)
                     (length v.2 + extraCap lastID addSizeCap i))
      :: clonedGroups base lastID addSizeCap (S i) rest
  end.

(** ** The handlers and contexts of the examples *)

Definition allLevels : Logger := mkLogger (fun _ => true).

Definition noValuer : LogValuer -> Value := fun _ => zeroValue.

(** A valuer that resolves to the one before it, down to an integer. *)
Definition chainValuer : LogValuer -> Value :=
  fun v => match v with
           | O => Int64Value 7
           | S v' => LogValuerValue v'
           end.

(** A valuer that resolves to itself. *)
Definition selfValuer : LogValuer -> Value := fun v => LogValuerValue v.

(** [NewZerologHandler(log, nil)] in an empty memory. *)
Definition h_new : ZerologHandler := mkHandler allLevels (mkSlice 0 1 1) (mkOptions false).
Definition m_new : mem := mkMem [] [[zeroGroup]] [].

(** [WithGroup("a")], [WithAttrs(x=1)], [WithGroup("b")], [WithAttrs(y=2)]
    on the new handler. *)
Definition derive_ab : result (ZerologHandler * mem) :=
  let* (h0, m0) := NewZerologHandler allLevels None emptyMem in
  let* (h1, m1) := WithGroup h0 "a" m0 in
  let* (h2, m2) := WithAttrs h1 [slog_Int "x" 1] m1 in
  let* (h3, m3) := WithGroup h2 "b" m2 in
  WithAttrs h3 [slog_Int "y" 2] m3.

Definition h_ab : ZerologHandler := mkHandler allLevels (mkSlice 4 3 3) (mkOptions false).
Definition m_ab : mem :=
  mkMem
    [[]; []; [slog_Int "x" 1]; []; [slog_Int "x" 1]; []; [slog_Int "x" 1]; [slog_Int "y" 2]]
    [[zeroGroup];
     [zeroGroup; mkGroup "a" nilSlice];
     [mkGroup "" (mkSlice 1 0 0); mkGroup "a" (mkSlice 2 1 1)];
     [mkGroup "" (mkSlice 3 0 0); mkGroup "a" (mkSlice 4 1 1); mkGroup "b" nilSlice];
     [mkGroup "" (mkSlice 5 0 0); mkGroup "a" (mkSlice 6 1 1); mkGroup "b" (mkSlice 7 1 1)]]
    [].

Definition record_z : Record_ := mkRecord (mkTime 0 "") "run" LevelWarn 0 [slog_Int "z" 3].
Definition record_n : Record_ := mkRecord (mkTime 0 "") "hello" LevelInfo 0 [slog_Int "n" 1].
Definition record_empty : Record_ := mkRecord (mkTime 0 "") "hello" LevelInfo 0 [].
Definition record_zero : Record_ := mkRecord (mkTime 0 "") "hello" LevelInfo 0 [zeroAttr].

(** ** What Handle renders *)

(** The step after the loop of [Handle], zerolog.go:174: the pending
    dictionary is set on the event under its name. *)
Definition attach (event : Event) (prev : option Event) (prevName : string) : Event :=
  match prev with
  | Some p => if negb (String.eqb prevName "") then Event_Dict event prevName p else event
  | None => event
  end.

(** The frames [Handle] passes to [CallerSkipFrame], and the message it sends. *)
Definition callerSkip (record : Record_) : Z :=
  if negb (PC record =? 0) then int_of_uintptr (PC record) else 0.

Definition message (record : Record_) : option string :=
  if String.eqb (Message record) "" then None else Some (Message record).

(** The fields a list of attributes sets on an empty dictionary. *)
Definition fieldsOf (LogValue : LogValuer -> Value) (fuel : nat) (l : list Attr)
  : result (list Field) :=
  let* d := appendAttrs LogValue fuel l Dict in Ret (buf d).

Definition projGroup (LogValue : LogValuer -> Value) (fuel : nat) (g : string * list Attr)
  : result (string * list Field) :=
  let* fs := fieldsOf LogValue fuel g.2 in Ret (g.1, fs).

(** The fields of the named groups [named], outermost first, around the
    fields [inner] of the innermost scope. *)
Fixpoint nest (named : list (string * list Field)) (inner : list Field) : list Field :=
  match named with
  | [] => inner
  | g :: rest => [FDict g.1 (g.2 ++ nest rest inner)]
  end.

(** The group sequence of a handler made by [NewZerologHandler], [WithAttrs]
    and [WithGroup]: an unnamed group, then named ones. *)
Definition wellShaped (gs : list (string * list Attr)) : Prop :=
  match gs with
  | [] => False
  | g :: named => g.1 = "" /\ Forall (fun g' : string * list Attr => g'.1 <> "") named
  end.

(** ** Records as slog builds them *)

(** [Value.isEmptyGroup]: a group without members. *)
Definition isEmptyGroup (v : Value) : bool :=
  match v with
  | GroupValue [] => true
  | _ => false
  end.

(** The attributes of a list that are not empty groups; [slog.GroupValue] and
    [Record.AddAttrs] keep these and leave the others out. *)
Definition dropEmptyGroups (l : list Attr) : list Attr :=
  List.filter (fun a => negb (isEmptyGroup (Val a))) l.


(** [slog.NewRecord(t, level, msg, pc)] and [Record.AddAttrs(attrs...)]. *)
Definition NewRecord (t : Time) (level : Z) (msg : string) (pc : Z) : Record_ :=
  mkRecord t msg level pc [].

Definition Record_AddAttrs (r : Record_) (l : list Attr) : Record_ :=
  mkRecord (rTime r) (Message r) (Level r) (PC r) (Attrs r ++ dropEmptyGroups l).

(** ** What the projection of one attribute sets *)

(** The value an attribute is projected with: valuers resolved, one unit of
    fuel each. *)
Fixpoint resolved (LogValue : LogValuer -> Value) (fuel : nat) (v : Value) : Value :=
  match fuel with
  | O => v
  | S fuel' =>
      match v with
      | LogValuerValue lv => resolved LogValue fuel' (LogValue lv)
      | _ => v
      end
  end.

(** The one value [Event.AnErr] sets no field for. *)
Definition isNilValuedError (v : Value) : bool :=
  match v with
  | AnyValue (anyError nilValuedError) => true
  | _ => false
  end.

(** Whether the attribute sets a field when it is projected. *)
Definition setsField (LogValue : LogValuer -> Value) (fuel : nat) (a : Attr) : bool :=
  negb (isNilValuedError (resolved LogValue fuel (Val a))).

(** ** Contexts of any implementation *)

(** [context.Context] is an interface.  Besides the contexts of the context
    package, [Handle] and [WithSlogFields] can be given a context of the
    caller's own, whose [Value] method answers any key as it likes, the key
    [slogFieldsStore{}] included.  [callerCtx value] is such a context, with
    a [Value] method that returns and gives the same answer to the same key
    every time; [valueCtxOn] is [context.WithValue] on any parent.  The nil
    [context.Context], on which [ctx.Value] panics, is not among them. *)
Inductive AnyContext : Type :=
| callerCtx (value : anyKey -> option ctxVal)
| valueCtxOn (parent : AnyContext) (key : ctxKey) (val : ctxVal).

Fixpoint AnyContext_Value (ctx : AnyContext) (key : anyKey) : option ctxVal :=
  match ctx with
  | callerCtx value => value key
  | valueCtxOn parent k v => if iface_eq k key then Some v else AnyContext_Value parent key
  end.

(** The contexts of the context package among them. *)
Fixpoint ofContext (ctx : Context) : AnyContext :=
  match ctx with
  | Background => callerCtx (fun _ => None)
  | valueCtx parent k v => valueCtxOn (ofContext parent) k v
  end.

(** [slogFieldsFromContext], context.go:33, on any context. *)
Definition slogFieldsFromAnyContext (ctx : AnyContext) : option nat :=
  match AnyContext_Value ctx slogFieldsStoreKey with
  | Some (storePtr p) => Some p
  | _ => None
  end.

(** [WithSlogFields], context.go:18, on any context. *)
Definition WithSlogFieldsOn (ctx : AnyContext) (attrs_ : list Attr) (m : mem)
  : result (AnyContext * mem) :=
  match slogFieldsFromAnyContext ctx with
  | None =>
      let existingStore := length (stores m) in
      Ret (valueCtxOn ctx logFieldsCtxKey (storePtr existingStore),
           mkMem (attrArrays m) (groupArrays m) (stores m ++ [mkStore attrs_]))
  | Some existingStore =>
      match stores m !! existingStore with
      | Some st =>
          Ret (ctx, mkMem (attrArrays m) (groupArrays m)
                      (<[existingStore := mkStore (fields st ++ attrs_)]> (stores m)))
      | None => Panic
      end
  end.

(** [WithSlogFields] called once for each list of [ass], each call on the
    context the call before returned. *)
Fixpoint attachAllOn (ctx : AnyContext) (ass : list (list Attr)) (m : mem)
  : result (AnyContext * mem) :=
  match ass with
  | [] => Ret (ctx, m)
  | attrs_ :: rest =>
      let* (ctx', m') := WithSlogFieldsOn ctx attrs_ m in attachAllOn ctx' rest m'
  end.

Section HandlerOnAnyContext.

Variable LogValue : LogValuer -> Value.

(** The loop of [Handle], zerolog.go:131, on any context. *)
Fixpoint walkOn (fuel : nat) (ctx : AnyContext) (record : Record_) (m : mem)
    (gs : list (string * list Attr)) (innermost : bool)
    (event : Event) (prev : option Event) (prevName : string)
  : result (Event * option Event * string) :=
  match gs with
  | [] => Ret (event, prev, prevName)
  | current :: outer =>
    if String.eqb (fst current) "" then
      let* event := appendAttrs LogValue fuel (snd current) event in
      let* event := if innermost then appendAttrs LogValue fuel (Attrs record) event
                    else Ret event in
      let* event :=
        match slogFieldsFromAnyContext ctx with
        | Some p =>
            match stores m !! p with
            | Some store =>
                if (0 <? length (fields store))%nat
                then appendAttrs LogValue fuel (fields store) event
                else Ret event
            | None => Panic
            end
        | None => Ret event
        end in
      Ret (event, prev, prevName)
    else
      let* groupAttrs := appendAttrs LogValue fuel (snd current) Dict in
      let* groupAttrs := if innermost then appendAttrs LogValue fuel (Attrs record) groupAttrs
                         else Ret groupAttrs in
      let groupAttrs := match prev with
                        | Some p => Event_Dict groupAttrs prevName p
                        | None => groupAttrs
                        end in
      walkOn fuel ctx record m outer false event (Some groupAttrs) (fst current)
  end.

(** [Handle] from zerolog.go:119 on, on any context. *)
Definition handleEventOn (fuel : nat) (h : ZerologHandler) (ctx : AnyContext)
    (record : Record_) (m : mem) (event : Event) : result outcome :=
  let event :=
    if negb (SkipTime (opts h)) && negb (Time_IsZero (rTime record))
    then Event_Time event TimestampFieldName (Time_UTC (rTime record))
    else event in
  let event :=
    if negb (PC record =? 0)
    then Event_CallerSkipFrame event (int_of_uintptr (PC record))
    else event in
  let* gs := readGroups h m in
  let* (event, prev, prevName) := walkOn fuel ctx record m (rev gs) true event None "" in
  let event :=
    match prev with
    | Some p => if negb (String.eqb prevName "") then Event_Dict event prevName p
                else event
    | None => event
    end in
  if String.eqb (Message record) ""
  then Ret (mkOut None [mkEmitted event None])
  else Ret (mkOut None [mkEmitted event (Some (Message record))]).

(** [Handle], zerolog.go:100, on any context. *)
Definition HandleOn (fuel : nat) (h : ZerologHandler) (ctx : AnyContext) (record : Record_)
    (m : mem) : result outcome :=
  let event :=
    if Level record =? LevelDebug then Some (Logger_Debug (log h))
    else if Level record =? LevelInfo then Some (Logger_Info (log h))
    else if Level record =? LevelWarn then Some (Logger_Warn (log h))
    else if Level record =? LevelError then Some (Logger_Error (log h))
    else None in
  match event with
  | None => Ret (mkOut (Some (errUnsupportedLogLevel (Level record))) [])
  | Some event =>
    if negb (Event_Enabled event) then Ret (mkOut None [])
    else
      match event with
      | Some event => handleEventOn fuel h ctx record m event
      | None => Ret (mkOut None [])
      end
  end.

End HandlerOnAnyContext.

(** A context of the caller's own that answers the key [slogFieldsStore{}]
    with the store at address 0, and a memory that holds the store with
    [k = "v"] there. *)
Definition ctx_store : AnyContext :=
  callerCtx (fun key => match key with
                        | slogFieldsStoreKey => Some (storePtr 0)
                        | comparableKey _ => None
                        end).
Definition m_store : mem := mkMem [] [[zeroGroup]] [mkStore [slog_String "k" "v"]].

(** The zero [ZerologHandler]: no logger output, no groups. *)
Definition h_zero : ZerologHandler :=
  mkHandler (mkLogger (fun _ => false)) nilSlice (mkOptions false).

(** * Facts *)

(** Case analysis on the outcome of a loop in the goal. *)
Ltac case_foldM :=
  match goal with
  | |- context [foldM ?f ?l ?b] => destruct (foldM f l b)
  end.

(** ** Facts about the loops *)

Lemma foldM_Ret_Forall {A B : Type} (P : A -> Prop) (f : B -> A -> result B) (l : list A) :
  (forall b a b', f b a = Ret b' -> P a) ->
  forall b b', foldM f l b = Ret b' -> Forall P l.
Proof.
  intros Hf. induction l as [|a l IH]; intros b b' H; [constructor|].
  simpl in H. destruct (f b a) as [b1| |] eqn:E; simpl in H; try discriminate.
  constructor; eauto.
Qed.

(** ** Facts about the projection *)

Section ProjectionFacts.

Variable LogValue : LogValuer -> Value.

Lemma Finite_ind' (P : Value -> Prop) :
  (forall v, isLeaf v = true -> P v) ->
  (forall g, Forall (fun a => P (Val a)) g -> P (GroupValue g)) ->
  (forall v, P (LogValue v) -> P (LogValuerValue v)) ->
  forall v, Finite LogValue v -> P v.
Proof.
  intros Hleaf Hgroup Hvaluer. fix IH 2. intros v [v' H | g H | lv H].
  - by apply Hleaf.
  - apply Hgroup. induction H as [|a g Ha Hg IHg]; constructor; [by apply IH | exact IHg].
  - apply Hvaluer. by apply IH.
Qed.

Lemma leaf_returns (fuel : nat) (k : string) (v : Value) (e : Event) :
  isLeaf v = true -> exists e', appendAttrToEvent LogValue (S fuel) (mkAttr k v) e = Ret e'.
Proof.
  intros H. destruct v as [a| | | | | | | | |]; simpl in *; try discriminate; eauto.
  destruct a; eauto.
Qed.

(** A bound shared by the members of a list. *)
Lemma Forall_bound {A : Type} (Q : nat -> A -> Prop) (l : list A) :
  (forall n n' a, (n <= n')%nat -> Q n a -> Q n' a) ->
  Forall (fun a => exists n, Q n a) l -> exists n, Forall (Q n) l.
Proof.
  intros Hmono H. induction H as [|a l [n Hn] _ [n' Hn']].
  - exists O. constructor.
  - exists (Nat.max n n'). constructor.
    + eapply Hmono; [|exact Hn]. lia.
    + eapply Forall_impl; [exact Hn'|]. intros x Hx. eapply Hmono; [|exact Hx]. lia.
Qed.

Lemma returnsFrom_mono (n n' : nat) (v : Value) :
  (n <= n')%nat -> returnsFrom LogValue n v -> returnsFrom LogValue n' v.
Proof. intros Hle H fuel k e Hf. apply H. lia. Qed.

Lemma appendAttrs_returns (n : nat) (l : list Attr) :
  Forall (fun a => returnsFrom LogValue n (Val a)) l ->
  forall fuel e, (n <= fuel)%nat -> exists e', appendAttrs LogValue fuel l e = Ret e'.
Proof.
  intros H fuel. induction H as [|a l Ha _ IH]; intros e Hf; simpl; [eauto|].
  destruct a as [k v]. destruct (Ha fuel k e Hf) as [e1 He1].
  unfold appendAttrs in *. simpl in *. rewrite He1. simpl. by apply IH.
Qed.

Lemma Finite_returns (v : Value) : Finite LogValue v -> exists n, returnsFrom LogValue n v.
Proof.
  revert v. apply (Finite_ind' (fun v => exists n, returnsFrom LogValue n v)).
  - intros v Hv. exists 1%nat. intros [|fuel] k e Hf; [lia|]. by apply leaf_returns.
  - intros g IH. apply Forall_bound in IH as [n Hn];
      [|intros ? ? a ? ?; by eapply returnsFrom_mono].
    exists (S n). intros [|fuel] k e Hf; [lia|]. simpl.
    destruct (appendAttrs_returns n g Hn fuel Dict ltac:(lia)) as [d Hd].
    unfold appendAttrs in Hd. rewrite Hd. simpl. eauto.
  - intros lv [n IH]. exists (S n). intros [|fuel] k e Hf; [lia|]. simpl. apply IH. lia.
Qed.

Lemma returns_Finite (fuel : nat) :
  forall (a : Attr) (e e' : Event),
    appendAttrToEvent LogValue fuel a e = Ret e' -> Finite LogValue (Val a).
Proof.
  induction fuel as [|fuel IH]; intros [k v] e e' H; [discriminate|].
  simpl in *. destruct v as [x| | | | | | | |g|lv]; try (by apply Finite_leaf).
  - apply Finite_group.
    match type of H with
    | context [foldM ?f g Dict] => destruct (foldM f g Dict) as [d| |] eqn:E
    end; simpl in H; try discriminate.
    eapply foldM_Ret_Forall; [|exact E]. intros b a b' Hb. simpl in Hb. exact (IH _ _ _ Hb).
  - apply Finite_valuer. by apply (IH _ _ _ H).
Qed.

Lemma FiniteAttrs_returns (l : list Attr) :
  FiniteAttrs LogValue l ->
  exists n, forall fuel e, (n <= fuel)%nat -> exists e', appendAttrs LogValue fuel l e = Ret e'.
Proof.
  intros H.
  assert (Forall (fun a => exists n, returnsFrom LogValue n (Val a)) l) as H'.
  { eapply Forall_impl; [exact H|]. intros a Ha. by apply Finite_returns. }
  apply Forall_bound in H' as [n Hn]; [|intros ? ? a ? ?; by eapply returnsFrom_mono].
  exists n. by apply appendAttrs_returns.
Qed.

End ProjectionFacts.

(** ** Facts about slices and arrays *)

Section ArrayFacts.

Context {A : Type}.
Variable zero : A.

Implicit Types (arrs base : list (list A)) (s : slice).

Lemma insert_keeps_prefix base arrs (i : nat) (x : list A) :
  base `prefix_of` arrs -> (length base <= i)%nat -> base `prefix_of` <[i := x]> arrs.
Proof.
  intros [k ->] Hi. rewrite insert_app_r_alt by done. by apply prefix_app_r.
Qed.

Lemma make_inv (n c : nat) arrs s arrs' :
  make zero n c arrs = Ret (s, arrs') ->
  s = mkSlice (length arrs) n c /\ arrs' = arrs ++ [replicate c zero] /\ (n <= c)%nat.
Proof.
  unfold make. destruct (c <? n)%nat eqn:E; [discriminate|].
  intros [= <- <-]. apply Nat.ltb_ge in E. done.
Qed.

Lemma readSlice_prefix s arrs arrs' (l : list A) :
  arrs `prefix_of` arrs' -> readSlice s arrs = Ret l -> readSlice s arrs' = Ret l.
Proof.
  intros Hp. unfold readSlice. destruct (len s =? 0)%nat; [done|].
  destruct (arrs !! ptr s) as [arr|] eqn:E; [|discriminate].
  by rewrite (prefix_lookup_Some _ _ _ _ E Hp).
Qed.

Lemma setIndex_prefix base s (i : Z) (x : A) arrs arrs' :
  setIndex s i x arrs = Ret arrs' ->
  base `prefix_of` arrs -> (length base <= ptr s)%nat -> base `prefix_of` arrs'.
Proof.
  unfold setIndex. intros H Hp Hs.
  destruct ((0 <=? i) && (i <? Z.of_nat (len s))); [|discriminate].
  destruct (arrs !! ptr s) as [arr|]; [|discriminate].
  destruct (Z.to_nat i <? length arr)%nat; [|discriminate].
  injection H as <-. by apply insert_keeps_prefix.
Qed.

Lemma setIndex_lookup s (i : Z) (x : A) arrs arrs' :
  setIndex s i x arrs = Ret arrs' ->
  exists arr, arrs !! ptr s = Some arr /\ arrs' !! ptr s = Some (<[Z.to_nat i := x]> arr).
Proof.
  unfold setIndex. intros H.
  destruct ((0 <=? i) && (i <? Z.of_nat (len s))); [|discriminate].
  destruct (arrs !! ptr s) as [arr|] eqn:E; [|discriminate].
  destruct (Z.to_nat i <? length arr)%nat; [|discriminate].
  injection H as <-. exists arr. split; [done|].
  apply list_lookup_insert_eq. by eapply lookup_lt_Some.
Qed.

Lemma copy_prefix base s (src : list A) arrs arrs' :
  copy s src arrs = Ret arrs' ->
  base `prefix_of` arrs -> (length base <= ptr s)%nat -> base `prefix_of` arrs'.
Proof.
  unfold copy. intros H Hp Hs.
  destruct (Nat.min (len s) (length src) =? 0)%nat; [by injection H as <-|].
  destruct (arrs !! ptr s) as [arr|]; [|discriminate].
  destruct (Nat.min (len s) (length src) <=? length arr)%nat; [|discriminate].
  injection H as <-. by apply insert_keeps_prefix.
Qed.

(** [append] leaves the arrays below [base] alone when the slice it extends
    has no capacity or lives above [base]. *)
Lemma append_prefix base s (xs : list A) arrs s' arrs' :
  append s xs arrs = Ret (s', arrs') ->
  base `prefix_of` arrs -> cap s = O \/ (length base <= ptr s)%nat ->
  base `prefix_of` arrs'.
Proof.
  unfold append. intros H Hp Hs.
  destruct (length xs =? 0)%nat eqn:En; [by injection H as <- <-|].
  apply Nat.eqb_neq in En.
  destruct (len s + length xs <=? cap s)%nat eqn:Ec.
  - apply Nat.leb_le in Ec.
    destruct (arrs !! ptr s) as [arr|]; [|discriminate].
    destruct (cap s <=? length arr)%nat; [|discriminate].
    injection H as <- <-. apply insert_keeps_prefix; [done|]. lia.
  - destruct (readSlice s arrs) as [old| |]; simpl in H; try discriminate.
    injection H as <- <-. by apply prefix_app_r.
Qed.

Lemma readSlice_length s arrs (l : list A) : readSlice s arrs = Ret l -> length l = len s.
Proof.
  unfold readSlice. destruct (len s =? 0)%nat eqn:E.
  - apply Nat.eqb_eq in E. by intros [= <-].
  - destruct (arrs !! ptr s) as [arr|]; [|discriminate].
    destruct (len s <=? length arr)%nat eqn:El; [|discriminate].
    apply Nat.leb_le in El. intros [= <-]. rewrite length_take. lia.
Qed.

Lemma readSlice_at s arrs (l rest : list A) :
  arrs !! ptr s = Some (l ++ rest) -> length l = len s -> readSlice s arrs = Ret l.
Proof.
  intros Hl Hlen. unfold readSlice. destruct (len s =? 0)%nat eqn:E.
  - apply Nat.eqb_eq in E. destruct l; [done|simpl in *; lia].
  - rewrite Hl. rewrite length_app.
    destruct (len s <=? length l + length rest)%nat eqn:El.
    + by rewrite take_app_length'.
    + apply Nat.leb_gt in El. lia.
Qed.

Lemma readSlice_whole s arrs (l : list A) :
  arrs !! ptr s = Some l -> length l = len s -> readSlice s arrs = Ret l.
Proof. intros Hl. apply (readSlice_at s arrs l []). by rewrite app_nil_r. Qed.

Lemma make_ok (n c : nat) arrs :
  (n <= c)%nat ->
  make zero n c arrs = Ret (mkSlice (length arrs) n c, arrs ++ [replicate c zero]).
Proof.
  intros H. unfold make. destruct (c <? n)%nat eqn:E; [|done].
  apply Nat.ltb_lt in E. lia.
Qed.

Lemma bounds_ok (i n : nat) : (i < n)%nat -> (0 <=? Z.of_nat i) && (Z.of_nat i <? Z.of_nat n) = true.
Proof. intros H. apply andb_true_iff. split; [apply Z.leb_le|apply Z.ltb_lt]; lia. Qed.

Lemma setIndex_ok s (i : nat) (x : A) arrs (arr : list A) :
  arrs !! ptr s = Some arr -> (i < len s)%nat -> (i < length arr)%nat ->
  setIndex s (Z.of_nat i) x arrs = Ret (<[ptr s := <[i := x]> arr]> arrs).
Proof.
  intros Hl Hi Ha. unfold setIndex. rewrite bounds_ok by done. rewrite Hl, Nat2Z.id.
  destruct (i <? length arr)%nat eqn:E; [done|]. apply Nat.ltb_ge in E. lia.
Qed.

Lemma index_ok s (i : nat) arrs (arr : list A) (x : A) :
  arrs !! ptr s = Some arr -> (i < len s)%nat -> arr !! i = Some x ->
  index s (Z.of_nat i) arrs = Ret x.
Proof.
  intros Hl Hi Hx. unfold index. rewrite bounds_ok by done. by rewrite Hl, Nat2Z.id, Hx.
Qed.

Lemma index_out_of_range s (i : Z) arrs : i < 0 -> index s i arrs = Panic.
Proof.
  intros H. unfold index. destruct (0 <=? i) eqn:E; [|done]. apply Z.leb_le in E. lia.
Qed.

Lemma copy_ok s (src : list A) arrs (arr : list A) :
  arrs !! ptr s = Some arr -> length src = len s -> (len s <= length arr)%nat ->
  copy s src arrs = Ret (<[ptr s := src ++ drop (len s) arr]> arrs).
Proof.
  intros Hl Hs Ha. unfold copy. rewrite Hs, Nat.min_id.
  destruct (len s =? 0)%nat eqn:E.
  - apply Nat.eqb_eq in E. rewrite E in *. destruct src; [|done]. simpl.
    by rewrite list_insert_id.
  - rewrite Hl. destruct (len s <=? length arr)%nat eqn:El.
    + by rewrite <- Hs, firstn_all.
    + apply Nat.leb_gt in El. lia.
Qed.

Lemma append_in_place s (xs : list A) arrs (arr : list A) :
  arrs !! ptr s = Some arr ->
  (len s + length xs <= cap s)%nat -> (cap s <= length arr)%nat ->
  append s xs arrs
  = Ret (mkSlice (ptr s) (len s + length xs) (cap s),
         <[ptr s := take (len s) arr ++ xs ++ drop (len s + length xs) arr]> arrs).
Proof.
  intros Hl Hc Ha. unfold append. destruct (length xs =? 0)%nat eqn:E.
  - apply Nat.eqb_eq in E. destruct xs; [|done]. simpl.
    rewrite Nat.add_0_r, take_drop, list_insert_id by done. by destruct s.
  - destruct (len s + length xs <=? cap s)%nat eqn:Ec;
      [|apply Nat.leb_gt in Ec; lia].
    rewrite Hl. destruct (cap s <=? length arr)%nat eqn:El; [done|].
    apply Nat.leb_gt in El. lia.
Qed.

End ArrayFacts.

Lemma insert_last {B : Type} (l : list B) (x y : B) : <[length l := y]> (l ++ [x]) = l ++ [y].
Proof. by rewrite insert_app_r_alt, Nat.sub_diag. Qed.

(** ** Facts about derivation *)

Lemma frozen_refl (m : mem) : frozen m m.
Proof. by repeat split. Qed.

Lemma cloneGroup_cloning (m0 : mem) (gs : slice) (lastID : Z) (addSizeCap : nat)
    (m : mem) (i : nat) (g : group) (m' : mem) :
  cloning m0 gs m -> cloneGroup gs lastID addSizeCap m i g = Ret m' -> cloning m0 gs m'.
Proof.
  intros [Ha Hg Hs Hn Hf]. unfold cloneGroup.
  destruct (make zeroAttr _ _ (attrArrays m)) as [[a aarrs]| |] eqn:Em; simpl; try discriminate.
  apply make_inv in Em as (-> & -> & _).
  destruct (setIndex gs _ _ (groupArrays m)) as [garrs| |] eqn:Es; simpl; try discriminate.
  destruct (readSlice (attrs g) _) as [src| |]; simpl; try discriminate.
  destruct (copy _ src _) as [aarrs'| |] eqn:Ec; simpl; try discriminate.
  intros [= <-]. pose proof (prefix_length _ _ Ha) as Hlen.
  constructor; simpl.
  - eapply copy_prefix; [exact Ec | by apply prefix_app_r | simpl; lia].
  - by eapply setIndex_prefix.
  - done.
  - done.
  - intros arr Harr. apply setIndex_lookup in Es as (arr0 & H0 & H1).
    rewrite H1 in Harr. injection Harr as <-.
    apply Forall_insert; [by apply Hf|]. right. simpl. lia.
Qed.

Lemma cloneGroups_cloning (m0 : mem) (gs : slice) (lastID : Z) (addSizeCap : nat)
    (hgroups : list group) :
  forall i m m', cloning m0 gs m ->
    cloneGroups gs lastID addSizeCap i hgroups m = Ret m' -> cloning m0 gs m'.
Proof.
  induction hgroups as [|g rest IH]; intros i m m' Hc H; simpl in H.
  - by injection H as <-.
  - destruct (cloneGroup gs lastID addSizeCap m i g) as [m1| |] eqn:E; simpl in H;
      try discriminate.
    eapply IH; [|exact H]. by eapply cloneGroup_cloning.
Qed.

Lemma clone_cloning (h newh : ZerologHandler) (addGroupsCap addSizeCap : nat) (m m' : mem) :
  clone h addGroupsCap addSizeCap m = Ret (newh, m') ->
  cloning m (groups newh) m' /\ log newh = log h /\ opts newh = opts h /\
  ptr (groups newh) = length (groupArrays m).
Proof.
  unfold clone.
  destruct (make zeroGroup _ _ (groupArrays m)) as [[gs garrs]| |] eqn:Em; simpl;
    try discriminate.
  apply make_inv in Em as (-> & -> & _).
  destruct (readSlice (groups h) _) as [hgroups| |]; simpl; try discriminate.
  destruct (cloneGroups _ _ _ _ _ _) as [m2| |] eqn:Ef; simpl; try discriminate.
  intros [= <- <-]. simpl. split; [|done].
  eapply cloneGroups_cloning; [|exact Ef].
  constructor; simpl; try done.
  - by apply prefix_app_r.
  - intros arr Harr. rewrite list_lookup_middle in Harr by done.
    injection Harr as <-. apply Forall_replicate. by left.
Qed.

Lemma WithAttrs_frozen (h newh : ZerologHandler) (attrs_ : list Attr) (m m' : mem) :
  WithAttrs h attrs_ m = Ret (newh, m') ->
  frozen m m' /\ log newh = log h /\ opts newh = opts h /\
  (length (groupArrays m) <= ptr (groups newh))%nat.
Proof.
  unfold WithAttrs.
  destruct (clone h 0 (length attrs_) m) as [[nh m1]| |] eqn:Ec; simpl; try discriminate.
  apply clone_cloning in Ec as ([Ha Hg Hs Hn Hf] & Hl & Ho & Hp).
  destruct (index (groups nh) _ (groupArrays m1)) as [g| |] eqn:Ei; simpl; try discriminate.
  destruct (append (attrs g) attrs_ (attrArrays m1)) as [[a aarrs]| |] eqn:Eap; simpl;
    try discriminate.
  destruct (setIndex (groups nh) _ _ (groupArrays m1)) as [garrs| |] eqn:Es; simpl;
    try discriminate.
  intros [= <- <-]. repeat split; simpl; try done; try lia.
  - eapply append_prefix; [exact Eap | done |].
    unfold index in Ei.
    destruct ((0 <=? _) && _); [|discriminate].
    destruct (groupArrays m1 !! ptr (groups nh)) as [arr|] eqn:Earr; [|discriminate].
    destruct (arr !! _) as [g'|] eqn:Eg; [|discriminate]. injection Ei as ->.
    specialize (Hf arr eq_refl). rewrite Forall_lookup in Hf. by eapply Hf.
  - by eapply setIndex_prefix.
Qed.

Lemma WithGroup_frozen (h newh : ZerologHandler) (name_ : string) (m m' : mem) :
  WithGroup h name_ m = Ret (newh, m') ->
  frozen m m' /\ log newh = log h /\ opts newh = opts h /\
  (name_ <> "" -> (length (groupArrays m) <= ptr (groups newh))%nat).
Proof.
  unfold WithGroup. destruct (String.eqb name_ "") eqn:En.
  - apply String.eqb_eq in En. intros [= <- <-]. split; [apply frozen_refl|done].
  - destruct (clone h 1 0 m) as [[nh m1]| |] eqn:Ec; simpl; try discriminate.
    apply clone_cloning in Ec as ([Ha Hg Hs Hn Hf] & Hl & Ho & Hp).
    destruct (append (groups nh) _ (groupArrays m1)) as [[gs garrs]| |] eqn:Eap; simpl;
      try discriminate.
    intros [= <- <-]. repeat split; simpl; try done.
    + eapply append_prefix; [exact Eap | done | by right].
    + intros _. pose proof (prefix_length _ _ Hg) as Hlen.
      unfold append in Eap. simpl in Eap.
      destruct (len (groups nh) + 1 <=? cap (groups nh))%nat.
      * destruct (groupArrays m1 !! ptr (groups nh)); [|discriminate].
        destruct (cap (groups nh) <=? _)%nat; [|discriminate].
        injection Eap as <- _. simpl. lia.
      * destruct (readSlice _ _); simpl in Eap; try discriminate.
        injection Eap as <- _. simpl. lia.
Qed.

(** ** What derivation builds *)

Lemma mapM_Forall2 {A B : Type} (f : A -> result B) (l : list A) (bs : list B) :
  mapM f l = Ret bs <-> Forall2 (fun a b => f a = Ret b) l bs.
Proof.
  revert bs. induction l as [|a l IH]; intros bs; simpl.
  - split; [intros [= <-]; constructor | by inversion 1].
  - split.
    + destruct (f a) as [b| |] eqn:E; simpl; try discriminate.
      destruct (mapM f l) as [bs'| |]; simpl; try discriminate.
      intros [= <-]. constructor; [done|]. by apply IH.
    + inversion 1 as [|? b ? bs' Hb Hbs]; subst. rewrite Hb. simpl.
      apply IH in Hbs. by rewrite Hbs.
Qed.

Lemma mapM_app {A B : Type} (f : A -> result B) (l1 l2 : list A) (b1 b2 : list B) :
  mapM f l1 = Ret b1 -> mapM f l2 = Ret b2 -> mapM f (l1 ++ l2) = Ret (b1 ++ b2).
Proof.
  rewrite !mapM_Forall2. apply Forall2_app.
Qed.

Lemma readGroup_Ret (m : mem) (g : group) (v : string * list Attr) :
  readGroup m g = Ret v <-> name g = v.1 /\ readSlice (attrs g) (attrArrays m) = Ret v.2.
Proof.
  unfold readGroup. destruct v as [n l]. simpl.
  destruct (readSlice (attrs g) (attrArrays m)) as [x| |]; simpl;
    split; try discriminate; try (intros [_ ?]; discriminate).
  - by intros [= <- <-].
  - by intros [<- [= <-]].
Qed.

Lemma cloneGroup_exact (AA NA : list (list Attr)) (GA : list (list group))
    (Gd : list group) (ST : list slogFieldsStore) (newGroups : slice) (lastID : Z)
    (b r : nat) (g : group) (v : string * list Attr) :
  ptr newGroups = length GA -> (length Gd < len newGroups)%nat ->
  name g = v.1 -> readSlice (attrs g) AA = Ret v.2 ->
  cloneGroup newGroups lastID b
    (mkMem (AA ++ NA) (GA ++ [Gd ++ replicate (S r) zeroGroup]) ST) (length Gd) g
  = Ret (mkMem
           (AA ++ NA ++ [v.2 ++ replicate (extraCap lastID b (length Gd)) zeroAttr])
           (GA ++ [Gd ++ mkGroup v.1
                           (mkSlice (length AA + length NA) (length v.2)
                              (length v.2 + extraCap lastID b (length Gd)))
                         :: replicate r zeroGroup])
           ST).
Proof.
  intros Hp Hlen Hn Hr. pose proof (readSlice_length _ _ _ Hr) as Hl.
  unfold cloneGroup. cbn [attrArrays groupArrays stores].
  fold (extraCap lastID b (length Gd)). set (x := extraCap lastID b (length Gd)).
  rewrite (make_ok zeroAttr) by lia. cbn [rbind].
  rewrite (setIndex_ok _ (length Gd) _ _ (Gd ++ replicate (S r) zeroGroup)).
  2: { rewrite Hp. by apply list_lookup_middle. }
  2: done.
  2: { rewrite length_app. simpl. lia. }
  cbn [rbind].
  rewrite (readSlice_prefix (attrs g) AA _ v.2); [|by repeat apply prefix_app_r|done].
  cbn [rbind].
  rewrite (copy_ok _ v.2 _ (replicate (len (attrs g) + x) zeroAttr)).
  2: { simpl. by apply list_lookup_middle. }
  2: done.
  2: { simpl. rewrite length_replicate. lia. }
  cbn [rbind ptr len]. rewrite insert_last, Hp, insert_last.
  rewrite drop_replicate, Nat.add_comm, Nat.add_sub.
  rewrite insert_app_r_alt, Nat.sub_diag by done. simpl.
  rewrite length_app, <- Hl, Hn, <- app_assoc. rewrite (Nat.add_comm x). done.
Qed.

Lemma cloneGroups_exact (AA : list (list Attr)) (GA : list (list group))
    (ST : list slogFieldsStore) (newGroups : slice) (lastID : Z) (a b : nat)
    (hg : list group) (gs : list (string * list Attr)) :
  ptr newGroups = length GA ->
  Forall2 (fun g v => name g = v.1 /\ readSlice (attrs g) AA = Ret v.2) hg gs ->
  forall (NA : list (list Attr)) (Gd : list group),
    len newGroups = (length Gd + length hg)%nat -> length NA = length Gd ->
    cloneGroups newGroups lastID b (length Gd) hg
      (mkMem (AA ++ NA) (GA ++ [Gd ++ replicate (length hg + a) zeroGroup]) ST)
    = Ret (mkMem
             (AA ++ NA ++ clonedArrays lastID b (length Gd) gs)
             (GA ++ [Gd ++ clonedGroups (length AA) lastID b (length Gd) gs
                        ++ replicate a zeroGroup])
             ST).
Proof.
  intros Hp H. induction H as [|g v hg gs [Hn Hr] _ IH]; intros NA Gd Hlen HNA.
  - simpl. by rewrite app_nil_r.
  - simpl in Hlen. cbn [cloneGroups clonedArrays clonedGroups length Nat.add].
    rewrite (cloneGroup_exact AA NA GA Gd ST newGroups lastID b (length hg + a) g v)
      by (done || lia).
    cbn [rbind].
    specialize (IH (NA ++ [v.2 ++ replicate (extraCap lastID b (length Gd)) zeroAttr])
                   (Gd ++ [mkGroup v.1
                             (mkSlice (length AA + length NA) (length v.2)
                                (length v.2 + extraCap lastID b (length Gd)))])).
    rewrite !length_app in IH. simpl in IH. rewrite !Nat.add_1_r in IH.
    rewrite <- !app_assoc in IH. simpl in IH. rewrite HNA in *.
    rewrite IH by lia. done.
Qed.

Lemma readGroups_inv (h : ZerologHandler) (m : mem) (gs : list (string * list Attr)) :
  readGroups h m = Ret gs ->
  exists hg, readSlice (groups h) (groupArrays m) = Ret hg /\
             Forall2 (fun g v => name g = v.1 /\
                                 readSlice (attrs g) (attrArrays m) = Ret v.2) hg gs /\
             len (groups h) = length gs.
Proof.
  unfold readGroups.
  destruct (readSlice (groups h) (groupArrays m)) as [hg| |] eqn:E; simpl; try discriminate.
  intros H. exists hg. apply mapM_Forall2 in H.
  pose proof (Forall2_length _ _ _ H) as Hlen.
  apply readSlice_length in E. split; [done|]. split; [|lia].
  eapply Forall2_impl; [exact H|]. intros g v. apply readGroup_Ret.
Qed.

(** [clone] returns on every handler whose groups can be read, and this is
    the memory it leaves. *)
Lemma clone_exact (h : ZerologHandler) (a b : nat) (m : mem)
    (gs : list (string * list Attr)) :
  readGroups h m = Ret gs ->
  clone h a b m
  = Ret (mkHandler (log h) (mkSlice (length (groupArrays m)) (length gs) (length gs + a))
           (opts h),
         mkMem
           (attrArrays m ++ clonedArrays (Z.of_nat (length gs) - 1) b 0 gs)
           (groupArrays m ++
              [clonedGroups (length (attrArrays m)) (Z.of_nat (length gs) - 1) b 0 gs
                 ++ replicate a zeroGroup])
           (stores m)).
Proof.
  intros Hv. apply readGroups_inv in Hv as (hg & Hg & Hf & Hlen).
  pose proof (Forall2_length _ _ _ Hf) as Hhg.
  unfold clone. rewrite (make_ok zeroGroup) by lia. cbn [rbind groupArrays].
  rewrite (readSlice_prefix (groups h) (groupArrays m) _ hg);
    [|by apply prefix_app_r|done].
  cbn [rbind]. rewrite Hlen.
  pose proof (cloneGroups_exact (attrArrays m) (groupArrays m) (stores m)
                (mkSlice (length (groupArrays m)) (length gs) (length gs + a))
                (Z.of_nat (length gs) - 1) a b hg gs eq_refl Hf [] []) as H.
  simpl in H. rewrite app_nil_r, Hhg in H. rewrite H by done. done.
Qed.

(** The groups that [clone] built read as the sequence they were built from,
    whatever lies around their arrays. *)
Lemma read_clonedGroups (AA : list (list Attr)) (GA : list (list group))
    (ST : list slogFieldsStore) (lastID : Z) (b : nat)
    (gs : list (string * list Attr)) :
  forall (P S : list (list Attr)),
    mapM (readGroup (mkMem (AA ++ P ++ clonedArrays lastID b (length P) gs ++ S) GA ST))
         (clonedGroups (length AA) lastID b (length P) gs)
    = Ret gs.
Proof.
  induction gs as [|v gs IH]; intros P S; simpl; [done|].
  unfold readGroup at 1. cbn [attrs name attrArrays].
  rewrite (readSlice_at _ _ v.2 (replicate (extraCap lastID b (length P)) zeroAttr)).
  2: { simpl. rewrite app_assoc, <- length_app. by apply list_lookup_middle. }
  2: done.
  cbn [rbind].
  specialize (IH (P ++ [v.2 ++ replicate (extraCap lastID b (length P)) zeroAttr]) S).
  rewrite length_app in IH. simpl in IH. rewrite Nat.add_1_r, <- app_assoc in IH.
  simpl in IH. rewrite IH. simpl. by destruct v.
Qed.

Lemma clonedArrays_app (lastID : Z) (b i : nat) (l1 l2 : list (string * list Attr)) :
  clonedArrays lastID b i (l1 ++ l2)
  = clonedArrays lastID b i l1 ++ clonedArrays lastID b (i + length l1) l2.
Proof.
  revert i. induction l1 as [|v l1 IH]; intros i; simpl.
  - by rewrite Nat.add_0_r.
  - by rewrite IH, Nat.add_succ_r.
Qed.

Lemma clonedGroups_app (base : nat) (lastID : Z) (b i : nat)
    (l1 l2 : list (string * list Attr)) :
  clonedGroups base lastID b i (l1 ++ l2)
  = clonedGroups base lastID b i l1 ++ clonedGroups base lastID b (i + length l1) l2.
Proof.
  revert i. induction l1 as [|v l1 IH]; intros i; simpl.
  - by rewrite Nat.add_0_r.
  - by rewrite IH, Nat.add_succ_r.
Qed.

Lemma length_clonedArrays (lastID : Z) (b i : nat) (l : list (string * list Attr)) :
  length (clonedArrays lastID b i l) = length l.
Proof. revert i. induction l as [|v l IH]; intros i; simpl; [done|]. by rewrite IH. Qed.

Lemma length_clonedGroups (base : nat) (lastID : Z) (b i : nat)
    (l : list (string * list Attr)) :
  length (clonedGroups base lastID b i l) = length l.
Proof. revert i. induction l as [|v l IH]; intros i; simpl; [done|]. by rewrite IH. Qed.

(** [WithAttrs] returns on every handler with at least one group, and the new
    handler holds the groups of the old one with the attributes added to the
    innermost. *)
Lemma WithAttrs_exact (h : ZerologHandler) (A : list Attr) (m : mem)
    (gs : list (string * list Attr)) (n : string) (l : list Attr) :
  readGroups h m = Ret (gs ++ [(n, l)]) ->
  exists h2 m',
    WithAttrs h A m = Ret (h2, m') /\
    readGroups h2 m' = Ret (gs ++ [(n, l ++ A)]).
Proof.
  intros Hv. unfold WithAttrs. rewrite (clone_exact h 0 (length A) m _ Hv).
  cbn [rbind groups len].
  assert (Z.of_nat (length (gs ++ [(n, l)])) - 1 = Z.of_nat (length gs)) as ->.
  { rewrite length_app. simpl. lia. }
  rewrite clonedArrays_app, clonedGroups_app. simpl.
  unfold extraCap. rewrite Z.eqb_refl.
  set (AA := attrArrays m). set (GA := groupArrays m).
  set (G := clonedGroups (length AA) (Z.of_nat (length gs)) (length A) 0 gs).
  set (N := clonedArrays (Z.of_nat (length gs)) (length A) 0 gs).
  assert (length G = length gs) as HG by apply length_clonedGroups.
  assert (length N = length gs) as HN by apply length_clonedArrays.
  set (last := mkGroup n (mkSlice (length AA + length gs) (length l) (length l + length A))).
  rewrite (index_ok _ (length gs) _ ((G ++ [last]) ++ []) last).
  2: { simpl. by apply list_lookup_middle. }
  2: { simpl. rewrite length_app. simpl. lia. }
  2: { rewrite app_nil_r. by apply list_lookup_middle. }
  cbn [rbind attrs name].
  rewrite (append_in_place _ A _ (l ++ replicate (length A) zeroAttr)).
  2: { simpl. rewrite app_assoc. apply list_lookup_middle. rewrite length_app. lia. }
  2: { simpl. lia. }
  2: { simpl. rewrite length_app, length_replicate. lia. }
  cbn [rbind ptr len cap].
  rewrite (setIndex_ok _ (length gs) _ _ ((G ++ [last]) ++ [])).
  2: { simpl. by apply list_lookup_middle. }
  2: { simpl. rewrite length_app. simpl. lia. }
  2: { rewrite app_nil_r, length_app. simpl. lia. }
  eexists _, _. split; [reflexivity|].
  subst last. cbn [name attrs ptr len cap].
  assert (take (length l) (l ++ replicate (length A) zeroAttr) ++ A ++
          drop (length l + length A) (l ++ replicate (length A) zeroAttr) = l ++ A) as ->.
  { rewrite take_app_length, drop_ge, app_nil_r; [done|].
    rewrite length_app, length_replicate. lia. }
  replace (length AA + length gs)%nat with (length (AA ++ N))
    by (rewrite length_app; lia).
  rewrite (app_assoc AA N), !insert_last, app_nil_r.
  rewrite <- HG, insert_last.
  unfold readGroups. cbn [groups groupArrays].
  rewrite (readSlice_whole _ _ (G ++ [mkGroup n
             (mkSlice (length (AA ++ N)) (length l + length A) (length l + length A))])).
  2: { simpl. by apply list_lookup_middle. }
  2: { simpl. rewrite !length_app. simpl. lia. }
  cbn [rbind]. apply mapM_app.
  - rewrite <- app_assoc.
    exact (read_clonedGroups AA _ _ (Z.of_nat (length gs)) (length A) gs [] [l ++ A]).
  - simpl. unfold readGroup. cbn [attrs name attrArrays].
    rewrite (readSlice_whole _ _ (l ++ A)).
    + done.
    + simpl. by apply list_lookup_middle.
    + simpl. by rewrite length_app.
Qed.

(** A handler without any group, as the zero [ZerologHandler] is: [WithAttrs]
    indexes its groups at -1. *)
Lemma WithAttrs_no_group (h : ZerologHandler) (A : list Attr) (m : mem) :
  readGroups h m = Ret [] -> WithAttrs h A m = Panic.
Proof.
  intros Hv. unfold WithAttrs. rewrite (clone_exact h 0 (length A) m _ Hv).
  cbn [rbind groups len length]. by rewrite index_out_of_range.
Qed.

(** [WithGroup] with a name returns on every handler whose groups can be
    read, and the new handler holds one more, empty group of that name. *)
Lemma WithGroup_exact (h : ZerologHandler) (name_ : string) (m : mem)
    (gs : list (string * list Attr)) :
  name_ <> "" ->
  readGroups h m = Ret gs ->
  exists h3 m',
    WithGroup h name_ m = Ret (h3, m') /\
    readGroups h3 m' = Ret (gs ++ [(name_, [])]).
Proof.
  intros Hn Hv. unfold WithGroup. apply String.eqb_neq in Hn. rewrite Hn.
  rewrite (clone_exact h 1 0 m _ Hv). cbn [rbind groups log opts groupArrays attrArrays stores].
  set (AA := attrArrays m). set (GA := groupArrays m).
  set (G := clonedGroups (length AA) (Z.of_nat (length gs) - 1) 0 0 gs).
  set (N := clonedArrays (Z.of_nat (length gs) - 1) 0 0 gs).
  assert (length G = length gs) as HG by apply length_clonedGroups.
  rewrite (append_in_place _ [mkGroup name_ nilSlice] _ (G ++ replicate 1 zeroGroup)).
  2: { simpl. by apply list_lookup_middle. }
  2: { simpl. lia. }
  2: { simpl. rewrite length_app. simpl. lia. }
  cbn [rbind ptr len cap length].
  eexists _, _. split; [reflexivity|].
  rewrite insert_last, <- HG.
  rewrite take_app_length, drop_ge, app_nil_r by (rewrite length_app; simpl; lia).
  unfold readGroups. cbn [groups groupArrays].
  rewrite (readSlice_whole _ _ (G ++ [mkGroup name_ nilSlice])).
  2: { simpl. by apply list_lookup_middle. }
  2: { simpl. rewrite length_app. simpl. lia. }
  cbn [rbind]. apply mapM_app.
  - pose proof (read_clonedGroups AA (GA ++ [G ++ [mkGroup name_ nilSlice]]) (stores m)
                  (Z.of_nat (length gs) - 1) 0 gs [] []) as H.
    simpl in H. rewrite app_nil_r in H. exact H.
  - reflexivity.
Qed.

Lemma NewZerologHandler_exact (l : Logger) (o : option HandlerOptions) (m : mem) :
  exists h m',
    NewZerologHandler l o m = Ret (h, m') /\
    readGroups h m' = Ret [("", [])] /\ log h = l /\ frozen m m' /\
    opts h = match o with Some o' => o' | None => mkOptions false end.
Proof.
  unfold NewZerologHandler. rewrite (make_ok zeroGroup) by lia. cbn [rbind].
  eexists _, _. split; [reflexivity|]. split_and!; try done.
  - unfold readGroups. cbn [groups groupArrays].
    rewrite (readSlice_whole _ _ [zeroGroup]); [done| |done].
    simpl. by apply list_lookup_middle.
  - repeat split; simpl; [done|by apply prefix_app_r].
Qed.

(** The handler of claim C1, derived in any memory. *)
Lemma derive_ab_exact (l : Logger) (o : option HandlerOptions) (m : mem) :
  exists h m',
    (let* (h0, m0) := NewZerologHandler l o m in
     let* (h1, m1) := WithGroup h0 "a" m0 in
     let* (h2, m2) := WithAttrs h1 [slog_Int "x" 1] m1 in
     let* (h3, m3) := WithGroup h2 "b" m2 in
     WithAttrs h3 [slog_Int "y" 2] m3) = Ret (h, m') /\
    readGroups h m' = Ret [("", []); ("a", [slog_Int "x" 1]); ("b", [slog_Int "y" 2])].
Proof.
  destruct (NewZerologHandler_exact l o m) as (h0 & m0 & E0 & V0 & _).
  rewrite E0. cbn [rbind].
  destruct (WithGroup_exact h0 "a" m0 _ ltac:(discriminate) V0) as (h1 & m1 & E1 & V1).
  rewrite E1. cbn [rbind].
  destruct (WithAttrs_exact h1 [slog_Int "x" 1] m1 [("", [])] "a" [] V1)
    as (h2 & m2 & E2 & V2).
  rewrite E2. cbn [rbind].
  destruct (WithGroup_exact h2 "b" m2 _ ltac:(discriminate) V2) as (h3 & m3 & E3 & V3).
  rewrite E3. cbn [rbind].
  destruct (WithAttrs_exact h3 [slog_Int "y" 2] m3 [("", []); ("a", [slog_Int "x" 1])]
              "b" [] V3) as (h4 & m4 & E4 & V4).
  exists h4, m4. split; [exact E4|exact V4].
Qed.

(** ** Facts about the field store *)

Lemma Context_Value_slogFieldsStoreKey (ctx : Context) :
  Context_Value ctx slogFieldsStoreKey = None.
Proof. induction ctx as [|parent IH k v]; [done|]. simpl. exact IH. Qed.

Lemma slogFieldsFromContext_nil (ctx : Context) : slogFieldsFromContext ctx = None.
Proof. unfold slogFieldsFromContext. by rewrite Context_Value_slogFieldsStoreKey. Qed.

Lemma WithSlogFields_arrays (ctx ctx' : Context) (attrs_ : list Attr) (m m' : mem) :
  WithSlogFields ctx attrs_ m = Ret (ctx', m') ->
  attrArrays m' = attrArrays m /\ groupArrays m' = groupArrays m.
Proof.
  unfold WithSlogFields. rewrite slogFieldsFromContext_nil. by intros [= <- <-].
Qed.

(** ** Facts about Handle *)

Lemma sinkLevel_None (level : Z) : sinkLevel level = None <-> ~ recognized level.
Proof.
  unfold sinkLevel, recognized, LevelDebug, LevelInfo, LevelWarn, LevelError.
  destruct (Z.eqb_spec level (-4)), (Z.eqb_spec level 0), (Z.eqb_spec level 4),
    (Z.eqb_spec level 8); split; intros H; try discriminate; try done; try tauto;
    exfalso; apply H; tauto.
Qed.

Section HandleFacts.

Variable LogValue : LogValuer -> Value.

Lemma Handle_unsupported (fuel : nat) h ctx r m :
  sinkLevel (Level r) = None ->
  Handle LogValue fuel h ctx r m = Ret (mkOut (Some (errUnsupportedLogLevel (Level r))) []).
Proof.
  unfold sinkLevel, Handle.
  destruct (Level r =? LevelDebug); [discriminate|].
  destruct (Level r =? LevelInfo); [discriminate|].
  destruct (Level r =? LevelWarn); [discriminate|].
  destruct (Level r =? LevelError); [discriminate|]. done.
Qed.

Lemma Handle_supported (fuel : nat) h ctx r m (zl : zLevel) :
  sinkLevel (Level r) = Some zl ->
  Handle LogValue fuel h ctx r m =
    if should (log h) zl
    then handleEvent LogValue fuel h ctx r m (mkEvent zl [] 0)
    else Ret (mkOut None []).
Proof.
  unfold sinkLevel, Handle, Logger_Debug, Logger_Info, Logger_Warn, Logger_Error, newEvent.
  destruct (Level r =? LevelDebug); [intros [= <-]; by destruct (should _ _)|].
  destruct (Level r =? LevelInfo); [intros [= <-]; by destruct (should _ _)|].
  destruct (Level r =? LevelWarn); [intros [= <-]; by destruct (should _ _)|].
  destruct (Level r =? LevelError); [intros [= <-]; by destruct (should _ _)|].
  discriminate.
Qed.

Lemma Enabled_sinkLevel h ctx (level : Z) :
  Enabled h ctx level =
    match sinkLevel level with Some zl => should (log h) zl | None => false end.
Proof.
  unfold sinkLevel, Enabled, Logger_Debug, Logger_Info, Logger_Warn, Logger_Error, newEvent.
  destruct (level =? LevelDebug); [by destruct (should _ _)|].
  destruct (level =? LevelInfo); [by destruct (should _ _)|].
  destruct (level =? LevelWarn); [by destruct (should _ _)|].
  destruct (level =? LevelError); [by destruct (should _ _)|]. done.
Qed.

(** The loop never reads the context's store, and nothing else of memory. *)
Lemma walk_indep (fuel : nat) (ctx ctx' : Context) r (m m' : mem) gs :
  forall innermost event prev prevName,
    walk LogValue fuel ctx r m gs innermost event prev prevName =
    walk LogValue fuel ctx' r m' gs innermost event prev prevName.
Proof.
  induction gs as [|current outer IH]; intros innermost event prev prevName; [done|].
  simpl. rewrite !slogFieldsFromContext_nil.
  destruct (String.eqb current.1 ""); [done|].
  destruct (appendAttrs LogValue fuel current.2 Dict); simpl; try done.
  destruct innermost; [destruct (appendAttrs _ _ _ _); simpl; try done|]; apply IH.
Qed.

Lemma handleEvent_view (fuel : nat) h (ctx ctx' : Context) r (m m' : mem) event :
  readGroups h m = readGroups h m' ->
  handleEvent LogValue fuel h ctx r m event = handleEvent LogValue fuel h ctx' r m' event.
Proof.
  intros Hv. unfold handleEvent. rewrite Hv.
  destruct (readGroups h m'); simpl; try done.
  by rewrite (walk_indep fuel ctx ctx' r m m').
Qed.

Lemma Handle_view (fuel : nat) h (ctx ctx' : Context) r (m m' : mem) :
  readGroups h m = readGroups h m' ->
  Handle LogValue fuel h ctx r m = Handle LogValue fuel h ctx' r m'.
Proof.
  intros Hv. destruct (sinkLevel (Level r)) as [zl|] eqn:E.
  - rewrite !(Handle_supported _ _ _ _ _ zl E). destruct (should _ _); [|done].
    by apply handleEvent_view.
  - by rewrite !Handle_unsupported.
Qed.

End HandleFacts.

Lemma mapM_ext_Forall {A B : Type} (f g : A -> result B) (l : list A) (bs : list B) :
  (forall a b, f a = Ret b -> g a = Ret b) -> mapM f l = Ret bs -> mapM g l = Ret bs.
Proof.
  intros Hfg. revert bs. induction l as [|a l IH]; intros bs H; simpl in *; [done|].
  destruct (f a) as [b| |] eqn:E; simpl in H; try discriminate.
  rewrite (Hfg _ _ E). simpl.
  destruct (mapM f l) as [bs'| |]; simpl in H; try discriminate.
  by rewrite (IH _ eq_refl).
Qed.

Lemma readGroups_frozen (h : ZerologHandler) (m m' : mem) gs :
  frozen m m' -> readGroups h m = Ret gs -> readGroups h m' = Ret gs.
Proof.
  intros (Ha & Hg & _). unfold readGroups.
  destruct (readSlice (groups h) (groupArrays m)) as [l| |] eqn:E; simpl; try discriminate.
  rewrite (readSlice_prefix _ _ _ _ Hg E). simpl.
  apply mapM_ext_Forall. intros g b. unfold readGroup.
  destruct (readSlice (attrs g) (attrArrays m)) as [x| |] eqn:Ex; simpl; try discriminate.
  by rewrite (readSlice_prefix _ _ _ _ Ha Ex).
Qed.

Section Termination.

Variable LogValue : LogValuer -> Value.

Lemma attrsReturnFrom_mono (n n' : nat) (l : list Attr) :
  (n <= n')%nat -> attrsReturnFrom LogValue n l -> attrsReturnFrom LogValue n' l.
Proof. intros Hle H fuel e Hf. apply H. lia. Qed.

Lemma walk_returns (n fuel : nat) ctx r m gs :
  (n <= fuel)%nat ->
  Forall (fun g => attrsReturnFrom LogValue n g.2) gs -> attrsReturnFrom LogValue n (Attrs r) ->
  forall innermost event prev prevName,
    exists res, walk LogValue fuel ctx r m gs innermost event prev prevName = Ret res.
Proof.
  intros Hf Hgs Hr. induction Hgs as [|current outer Hc _ IH];
    intros innermost event prev prevName; simpl; [eauto|].
  rewrite slogFieldsFromContext_nil. destruct (String.eqb current.1 "").
  - destruct (Hc fuel event Hf) as [e1 ->]. simpl.
    destruct innermost; simpl; [|eauto].
    destruct (Hr fuel e1 Hf) as [e2 ->]. simpl. eauto.
  - destruct (Hc fuel Dict Hf) as [d1 ->]. simpl.
    destruct innermost; simpl; [|apply IH].
    destruct (Hr fuel d1 Hf) as [d2 ->]. simpl. apply IH.
Qed.

Lemma handleEvent_returns (n fuel : nat) h ctx r m gs event :
  (n <= fuel)%nat -> readGroups h m = Ret gs ->
  Forall (fun g => attrsReturnFrom LogValue n g.2) gs -> attrsReturnFrom LogValue n (Attrs r) ->
  exists e, handleEvent LogValue fuel h ctx r m event = Ret (mkOut None [e]).
Proof.
  intros Hf Hv Hgs Hr. unfold handleEvent. rewrite Hv. simpl.
  match goal with
  | |- context [walk LogValue fuel ctx r m (rev gs) true ?e0 None ""] =>
      destruct (walk_returns n fuel ctx r m (rev gs) Hf (Forall_rev Hgs) Hr
                  true e0 None "") as [[[e1 prev] prevName] ->]
  end.
  simpl. destruct (String.eqb (Message r) ""); eauto.
Qed.

Lemma finite_groups_bound (gs : list (string * list Attr)) (l : list Attr) :
  Forall (fun g => FiniteAttrs LogValue g.2) gs -> FiniteAttrs LogValue l ->
  exists n, Forall (fun g => attrsReturnFrom LogValue n g.2) gs /\ attrsReturnFrom LogValue n l.
Proof.
  intros Hgs Hl.
  assert (Forall (fun g : string * list Attr => exists n, attrsReturnFrom LogValue n g.2) gs) as H.
  { eapply Forall_impl; [exact Hgs|]. intros g Hg. by apply FiniteAttrs_returns. }
  apply Forall_bound in H as [n1 H1];
    [|intros ? ? g ? ?; by eapply attrsReturnFrom_mono].
  destruct (FiniteAttrs_returns LogValue l Hl) as [n2 H2].
  exists (Nat.max n1 n2). split.
  - eapply Forall_impl; [exact H1|]. intros g Hg.
    eapply attrsReturnFrom_mono; [|exact Hg]. lia.
  - eapply attrsReturnFrom_mono; [|exact H2]. lia.
Qed.

(** [Handle] returns on a handler and a record whose attributes are finite. *)
Lemma Handle_returns h ctx r m gs :
  readGroups h m = Ret gs ->
  Forall (fun g => FiniteAttrs LogValue g.2) gs -> FiniteAttrs LogValue (Attrs r) ->
  exists n, forall fuel, (n <= fuel)%nat ->
    match sinkLevel (Level r) with
    | None => Handle LogValue fuel h ctx r m
              = Ret (mkOut (Some (errUnsupportedLogLevel (Level r))) [])
    | Some zl =>
        if should (log h) zl
        then exists e, Handle LogValue fuel h ctx r m = Ret (mkOut None [e])
        else Handle LogValue fuel h ctx r m = Ret (mkOut None [])
    end.
Proof.
  intros Hv Hgs Hr. destruct (finite_groups_bound gs (Attrs r) Hgs Hr) as (n & H1 & H2).
  exists n. intros fuel Hf. destruct (sinkLevel (Level r)) as [zl|] eqn:E.
  - rewrite (Handle_supported _ _ _ _ _ _ zl E). destruct (should (log h) zl); [|done].
    by eapply handleEvent_returns.
  - by apply Handle_unsupported.
Qed.

(** The projection only sets fields after those the event has, and the
    fields do not depend on the event. *)
Lemma appendAttrToEvent_extend (fuel : nat) :
  forall (a : Attr) (e : Event),
    appendAttrToEvent LogValue fuel a e =
    let* d := appendAttrToEvent LogValue fuel a Dict in Ret (extend e (buf d)).
Proof.
  induction fuel as [|fuel IH]; intros [k v] e; [done|].
  simpl. destruct v as [x| | | | | | | |g|lv]; [|done..| |apply IH].
  - destruct x as [|[|msg]|]; try done.
    unfold Event_AnErr, extend. simpl. rewrite app_nil_r. by destruct e.
  - by case_foldM.
Qed.

Lemma extend_extend (e : Event) (fs1 fs2 : list Field) :
  extend (extend e fs1) fs2 = extend e (fs1 ++ fs2).
Proof. unfold extend. simpl. by rewrite app_assoc. Qed.

Lemma appendAttrs_extend (fuel : nat) (l : list Attr) :
  forall e : Event,
    appendAttrs LogValue fuel l e =
    let* d := appendAttrs LogValue fuel l Dict in Ret (extend e (buf d)).
Proof.
  unfold appendAttrs. induction l as [|a l IH]; intros e; simpl.
  - unfold extend. simpl. rewrite app_nil_r. by destruct e.
  - rewrite (appendAttrToEvent_extend fuel a e).
    destruct (appendAttrToEvent LogValue fuel a Dict) as [d1| |]; simpl; try done.
    rewrite (IH (extend e (buf d1))), (IH d1).
    case_foldM; simpl; try done.
    rewrite extend_extend. done.
Qed.

Lemma appendAttrToEvent_no_panic (fuel : nat) :
  forall (a : Attr) (e : Event), appendAttrToEvent LogValue fuel a e <> Panic.
Proof.
  induction fuel as [|fuel IH]; intros [k v] e; [done|].
  simpl. destruct v as [x| | | | | | | |g|lv]; [|done..| |apply IH].
  - by destruct x as [|[|msg]|].
  - assert (forall d, foldM (fun dict groupAttr =>
              appendAttrToEvent LogValue fuel groupAttr dict) g d <> Panic) as H.
    { induction g as [|a g IHg]; intros d; simpl; [done|].
      destruct (appendAttrToEvent LogValue fuel a d) eqn:E; simpl; try done.
      by apply IH in E. }
    specialize (H Dict). revert H. by case_foldM.
Qed.

End Termination.

Lemma handleEvent_inv (LogValue : LogValuer -> Value) (fuel : nat) h ctx r m event out :
  handleEvent LogValue fuel h ctx r m event = Ret out ->
  err out = None /\ exists e, sent out = [e].
Proof.
  unfold handleEvent. destruct (readGroups h m) as [gs| |]; simpl; try discriminate.
  destruct (walk _ _ _ _ _ _ _ _ _ _) as [[[e1 prev] prevName]| |]; simpl; try discriminate.
  destruct (String.eqb (Message r) ""); intros [= <-]; simpl; eauto.
Qed.

Lemma Handle_inv (LogValue : LogValuer -> Value) (fuel : nat) h ctx r m out :
  Handle LogValue fuel h ctx r m = Ret out ->
  match sinkLevel (Level r) with
  | None => out = mkOut (Some (errUnsupportedLogLevel (Level r))) []
  | Some zl =>
      err out = None /\
      if should (log h) zl then exists e, sent out = [e] else sent out = []
  end.
Proof.
  destruct (sinkLevel (Level r)) as [zl|] eqn:E.
  - rewrite (Handle_supported _ _ _ _ _ _ zl E). destruct (should (log h) zl).
    + apply handleEvent_inv.
    + by intros [= <-].
  - rewrite Handle_unsupported by done. by intros [= <-].
Qed.

Example NewZerologHandler_new :
  NewZerologHandler allLevels None emptyMem = Ret (h_new, m_new).
Proof. reflexivity. Qed.

Example derive_ab_result : derive_ab = Ret (h_ab, m_ab).
Proof. reflexivity. Qed.

(** The example of the repository: [ExampleNewZerologHandler]. *)
Example ExampleNewZerologHandler :
  (let* (h0, m0) := NewZerologHandler allLevels (Some (mkOptions true)) emptyMem in
   let* (h1, m1) := WithAttrs h0 [slog_Int "id" 1] m0 in
   let* (h2, m2) := WithGroup h1 "bro" m1 in
   let* (h3, m3) := WithAttrs h2 [slog_Int "bro_id" 2] m2 in
   let* (h4, m4) := WithGroup h3 "group_1" m3 in
   let* (h5, m5) := WithAttrs h4 [slog_Int "group_id" 3] m4 in
   Handle noValuer 1 h5 Background
     (mkRecord (mkTime 1 "Local") "run" LevelWarn 0 [slog_String "who" "forest"]) m5)
  = Ret (mkOut None
      [mkEmitted
         (mkEvent zWarnLevel
            [FInt64 "id" 1;
             FDict "bro" [FInt64 "bro_id" 2;
                          FDict "group_1" [FInt64 "group_id" 3; FStr "who" "forest"]]] 0)
         (Some "run")]).
Proof. reflexivity. Qed.

(** * The claims *)

(** C1. With groups opened in order a, b, attribute x=1 added while a was
    innermost and y=2 while b was, [Handle] of a record at an enabled level
    emits one event whose fields are the timestamp, if any, then
    a: { x:1, b: { y:2, record attributes } }: the record's attributes are
    set inside b and nowhere else. *)
Theorem nesting_order (LogValue : LogValuer -> Value) (fuel : nat)
    (h : ZerologHandler) (ctx : Context) (r : Record_) (m : mem) (zl : zLevel) (d : Event) :
  readGroups h m = Ret [("", []); ("a", [slog_Int "x" 1]); ("b", [slog_Int "y" 2])] ->
  sinkLevel (Level r) = Some zl ->
  should (log h) zl = true ->
  appendAttrs LogValue (S fuel) (Attrs r) Dict = Ret d ->
  exists e,
    Handle LogValue (S fuel) h ctx r m = Ret (mkOut None [e]) /\
    buf (ev e) =
      stamp h r ++ [FDict "a" [FInt64 "x" 1; FDict "b" (FInt64 "y" 2 :: buf d)]].
Proof.
  intros Hv Hl Hs Hd. rewrite (Handle_supported _ _ _ _ _ _ zl Hl), Hs.
  unfold handleEvent. rewrite Hv. cbn [rbind rev app walk fst snd String.eqb Ascii.eqb].
  rewrite slogFieldsFromContext_nil.
  change (appendAttrs LogValue (S fuel) [slog_Int "y" 2] Dict)
    with (Ret (A := Event) (Event_Int64 Dict "y" 2)).
  change (appendAttrs LogValue (S fuel) [slog_Int "x" 1] Dict)
    with (Ret (A := Event) (Event_Int64 Dict "x" 1)).
  cbn [rbind]. rewrite (appendAttrs_extend LogValue (S fuel) (Attrs r)), Hd.
  cbn [rbind appendAttrs foldM].
  destruct (String.eqb (Message r) ""); eexists; (split; [reflexivity|]);
    unfold stamp; simpl;
    by destruct (negb (SkipTime (opts h)) && negb (Time_IsZero (rTime r))),
      (negb (PC r =? 0)).
Qed.

Lemma nesting_order_witness :
  derive_ab = Ret (h_ab, m_ab) /\
  exists e,
    Handle noValuer 1 h_ab Background record_z m_ab = Ret (mkOut None [e]) /\
    buf (ev e) = [FDict "a" [FInt64 "x" 1; FDict "b" [FInt64 "y" 2; FInt64 "z" 3]]].
Proof.
  split; [reflexivity|].
  exact (nesting_order noValuer 0 h_ab Background record_z m_ab zWarnLevel
           (Event_Int64 Dict "z" 3) eq_refl eq_refl eq_refl eq_refl).
Defined.

(** C2 (the code does otherwise).  A new handler, no group open; the fields
    k="v" are attached to the context with [WithSlogFields], and the context
    does hold the store; [Handle] of a record with n=1 emits n=1 alone: the
    key k occurs nowhere in the event. *)
Theorem ambient_fields_not_emitted (LogValue : LogValuer -> Value) (fuel : nat) :
  exists ctx m,
    NewZerologHandler allLevels None emptyMem = Ret (h_new, m_new) /\
    WithSlogFields Background [slog_String "k" "v"] m_new = Ret (ctx, m) /\
    Context_Value ctx (comparableKey logFieldsCtxKey) = Some (storePtr 0) /\
    stores m !! 0%nat = Some (mkStore [slog_String "k" "v"]) /\
    readGroups h_new m = Ret [("", [])] /\
    Handle LogValue (S fuel) h_new ctx record_n m
      = Ret (mkOut None [mkEmitted (mkEvent zInfoLevel [FInt64 "n" 1] 0) (Some "hello")]) /\
    mentions "k" [FInt64 "n" 1] = false.
Proof. eexists _, _. repeat split; reflexivity. Qed.

(** C3 (the code does otherwise).  A context that already carries a store:
    [WithSlogFields] returns a new context, not the one it was given, leaves
    the store of that context as it was and allocates a second one. *)
Theorem WithSlogFields_allocates_again :
  exists ctx1 m1 ctx2 m2,
    WithSlogFields Background [slog_String "k" "v"] emptyMem = Ret (ctx1, m1) /\
    Context_Value ctx1 (comparableKey logFieldsCtxKey) = Some (storePtr 0) /\
    stores m1 = [mkStore [slog_String "k" "v"]] /\
    WithSlogFields ctx1 [slog_String "k2" "v2"] m1 = Ret (ctx2, m2) /\
    ctx2 <> ctx1 /\
    Context_Value ctx2 (comparableKey logFieldsCtxKey) = Some (storePtr 1) /\
    stores m2 = [mkStore [slog_String "k" "v"]; mkStore [slog_String "k2" "v2"]].
Proof. eexists _, _, _, _. repeat split; try reflexivity. discriminate. Qed.

(** Whatever the context holds, [WithSlogFields] binds a fresh store. *)
Lemma WithSlogFields_fresh (ctx : Context) (attrs_ : list Attr) (m : mem) :
  WithSlogFields ctx attrs_ m
  = Ret (valueCtx ctx logFieldsCtxKey (storePtr (length (stores m))),
         mkMem (attrArrays m) (groupArrays m) (stores m ++ [mkStore attrs_])).
Proof. unfold WithSlogFields. by rewrite slogFieldsFromContext_nil. Qed.

(** C4 (the code does otherwise).  A handler that opened the group g and
    never added an attribute, a record without attributes: the event carries
    an empty dictionary under g. *)
Theorem empty_group_is_emitted (LogValue : LogValuer -> Value) (fuel : nat) :
  exists h m,
    NewZerologHandler allLevels None emptyMem = Ret (h_new, m_new) /\
    WithGroup h_new "g" m_new = Ret (h, m) /\
    readGroups h m = Ret [("", []); ("g", [])] /\
    Handle LogValue fuel h Background record_empty m
      = Ret (mkOut None [mkEmitted (mkEvent zInfoLevel [FDict "g" []] 0) (Some "hello")]) /\
    mentions "g" [FDict "g" []] = true.
Proof. eexists _, _. repeat split; reflexivity. Qed.

(** C5 (the code does otherwise).  The attribute with empty key and zero
    value sets a field: [Any("", nil)] on the event, also inside a group, and
    it reaches the sink through [Handle]. *)
Theorem zero_attr_is_projected (LogValue : LogValuer -> Value) (fuel : nat) (e : Event) :
  appendAttrToEvent LogValue (S fuel) zeroAttr e = Ret (addField e (FAny "" anyNil)) /\
  appendAttrToEvent LogValue (S (S fuel)) (mkAttr "g" (GroupValue [zeroAttr])) e
    = Ret (addField e (FDict "g" [FAny "" anyNil])) /\
  NewZerologHandler allLevels None emptyMem = Ret (h_new, m_new) /\
  Handle LogValue (S fuel) h_new Background record_zero m_new
    = Ret (mkOut None [mkEmitted (mkEvent zInfoLevel [FAny "" anyNil] 0) (Some "hello")]).
Proof. repeat split; reflexivity. Qed.

(** C6. For a handler h with at least one group and a non-empty name g,
    h2 = h.WithAttrs(A) and then h3 = h.WithGroup(g) are returned, h2 holds
    the groups of h with A added to the innermost and h3 those of h with the
    empty group g added, and no array and no store that existed before is
    changed: the group sequences of h and of h2 read as before, the options
    and the logger are inherited, the group arrays of h2 and h3 are new, and
    [Handle] on h gives what it gave before. *)
Theorem derivation_preserves_ancestor (LogValue : LogValuer -> Value)
    (h : ZerologHandler) (A : list Attr) (g : string) (m : mem)
    (gs : list (string * list Attr)) (n : string) (l : list Attr) :
  g <> "" ->
  readGroups h m = Ret (gs ++ [(n, l)]) ->
  exists h2 m1 h3 m2,
    WithAttrs h A m = Ret (h2, m1) /\
    WithGroup h g m1 = Ret (h3, m2) /\
    readGroups h2 m1 = Ret (gs ++ [(n, l ++ A)]) /\
    readGroups h3 m2 = Ret ((gs ++ [(n, l)]) ++ [(g, [])]) /\
    frozen m m1 /\ frozen m1 m2 /\
    readGroups h m1 = Ret (gs ++ [(n, l)]) /\
    readGroups h m2 = Ret (gs ++ [(n, l)]) /\
    readGroups h2 m2 = Ret (gs ++ [(n, l ++ A)]) /\
    opts h2 = opts h /\ opts h3 = opts h /\ log h2 = log h /\ log h3 = log h /\
    (length (groupArrays m) <= ptr (groups h2))%nat /\
    (length (groupArrays m1) <= ptr (groups h3))%nat /\
    forall fuel ctx r,
      Handle LogValue fuel h ctx r m1 = Handle LogValue fuel h ctx r m /\
      Handle LogValue fuel h ctx r m2 = Handle LogValue fuel h ctx r m.
Proof.
  intros Hg Hv.
  destruct (WithAttrs_exact h A m gs n l Hv) as (h2 & m1 & Ha & V2).
  pose proof (WithAttrs_frozen _ _ _ _ _ Ha) as (F1 & L1 & O1 & P1).
  pose proof (readGroups_frozen h m m1 _ F1 Hv) as R1.
  destruct (WithGroup_exact h g m1 _ Hg R1) as (h3 & m2 & Hw & V3).
  pose proof (WithGroup_frozen _ _ _ _ _ Hw) as (F2 & L2 & O2 & P2).
  pose proof (readGroups_frozen h m1 m2 _ F2 R1) as R2.
  pose proof (readGroups_frozen h2 m1 m2 _ F2 V2) as R3.
  exists h2, m1, h3, m2. split_and!; auto.
  intros fuel ctx r. split; apply Handle_view; congruence.
Qed.

Lemma derivation_preserves_ancestor_witness :
  exists h2 m1 h3 m2,
    WithAttrs h_new [slog_Int "id" 1] m_new = Ret (h2, m1) /\
    WithGroup h_new "g" m1 = Ret (h3, m2) /\
    readGroups h2 m1 = Ret [("", [slog_Int "id" 1])] /\
    readGroups h3 m2 = Ret [("", []); ("g", [])] /\
    frozen m_new m1 /\ readGroups h_new m2 = Ret [("", [])] /\
    Handle noValuer 1 h_new Background record_n m2
      = Handle noValuer 1 h_new Background record_n m_new.
Proof.
  destruct (derivation_preserves_ancestor noValuer h_new [slog_Int "id" 1] "g"
              m_new [] "" [] ltac:(discriminate) eq_refl)
    as (h2 & m1 & h3 & m2 & Ha & Hw & V2 & V3 & F1 & _ & _ & R2 & _ & _ & _ & _ & _ & _ & _ & Hh).
  exists h2, m1, h3, m2. split_and!; try done.
  exact (proj2 (Hh 1%nat Background record_n)).
Defined.

(** C7. [Handle] returns an error exactly when the level of the record is
    not one of Debug, Info, Warn, Error, and then nothing is sent; at a
    recognized level that the sink has off it returns success and sends
    nothing; at a recognized level that is on, it returns success with one
    event, given that the attributes of the handler and the record are
    finite. *)
Theorem Handle_error_iff_unsupported_level (LogValue : LogValuer -> Value)
    (h : ZerologHandler) (ctx : Context) (r : Record_) (m : mem) :
  (forall fuel, ~ recognized (Level r) ->
     Handle LogValue fuel h ctx r m
     = Ret (mkOut (Some (errUnsupportedLogLevel (Level r))) [])) /\
  (forall fuel, recognized (Level r) -> Enabled h ctx (Level r) = false ->
     Handle LogValue fuel h ctx r m = Ret (mkOut None [])) /\
  (forall gs, recognized (Level r) -> Enabled h ctx (Level r) = true ->
     readGroups h m = Ret gs ->
     Forall (fun g => FiniteAttrs LogValue g.2) gs -> FiniteAttrs LogValue (Attrs r) ->
     exists n, forall fuel, (n <= fuel)%nat ->
       exists e, Handle LogValue fuel h ctx r m = Ret (mkOut None [e])) /\
  (forall fuel out, Handle LogValue fuel h ctx r m = Ret out ->
     (err out <> None <-> ~ recognized (Level r))).
Proof.
  repeat split.
  - intros fuel Hn. apply Handle_unsupported. by apply sinkLevel_None.
  - intros fuel Hr He. rewrite Enabled_sinkLevel in He.
    destruct (sinkLevel (Level r)) as [zl|] eqn:E.
    + by rewrite (Handle_supported _ _ _ _ _ _ zl E), He.
    + by apply sinkLevel_None in E.
  - intros gs Hr He Hv Hgs Hra. rewrite Enabled_sinkLevel in He.
    destruct (Handle_returns LogValue h ctx r m gs Hv Hgs Hra) as [n Hn].
    exists n. intros fuel Hf. specialize (Hn fuel Hf).
    destruct (sinkLevel (Level r)) as [zl|]; [|discriminate]. by rewrite He in Hn.
  - intros He Hr. apply Handle_inv in H.
    destruct (sinkLevel (Level r)) as [zl|] eqn:E.
    + by destruct H as [H _].
    + by apply sinkLevel_None in E.
  - intros Hn. apply Handle_inv in H. apply sinkLevel_None in Hn. rewrite Hn in H.
    by subst out.
Qed.

Lemma Handle_error_iff_unsupported_level_witness :
  Handle noValuer 0 h_ab Background (mkRecord (mkTime 0 "") "run" 1 0 []) m_ab
    = Ret (mkOut (Some (errUnsupportedLogLevel 1)) []) /\
  exists n, forall fuel, (n <= fuel)%nat ->
    exists e, Handle noValuer fuel h_ab Background record_z m_ab = Ret (mkOut None [e]).
Proof.
  split.
  - apply (proj1 (Handle_error_iff_unsupported_level noValuer h_ab Background
                    (mkRecord (mkTime 0 "") "run" 1 0 []) m_ab) 0%nat).
    unfold recognized, LevelDebug, LevelInfo, LevelWarn, LevelError. simpl. lia.
  - apply (proj1 (proj2 (proj2 (Handle_error_iff_unsupported_level noValuer h_ab
                    Background record_z m_ab)))
             [("", []); ("a", [slog_Int "x" 1]); ("b", [slog_Int "y" 2])]).
    + right. right. left. reflexivity.
    + reflexivity.
    + reflexivity.
    + repeat constructor.
    + repeat constructor.
Defined.

(** C8. At each of the four levels [Enabled] is the level gate of the sink,
    at any other level it is false; [Handle] at a recognized level sends an
    event exactly when [Enabled] holds there, and with finite attributes it
    does return. *)
Theorem level_gating (LogValue : LogValuer -> Value) (h : ZerologHandler) (ctx : Context) :
  Enabled h ctx LevelDebug = should (log h) zDebugLevel /\
  Enabled h ctx LevelInfo = should (log h) zInfoLevel /\
  Enabled h ctx LevelWarn = should (log h) zWarnLevel /\
  Enabled h ctx LevelError = should (log h) zErrorLevel /\
  (forall level, ~ recognized level -> Enabled h ctx level = false) /\
  (forall fuel r m out, recognized (Level r) ->
     Handle LogValue fuel h ctx r m = Ret out ->
     (sent out <> [] <-> Enabled h ctx (Level r) = true)) /\
  (forall r m gs, recognized (Level r) ->
     readGroups h m = Ret gs ->
     Forall (fun g => FiniteAttrs LogValue g.2) gs -> FiniteAttrs LogValue (Attrs r) ->
     exists n, forall fuel, (n <= fuel)%nat ->
       exists out, Handle LogValue fuel h ctx r m = Ret out /\
                   (sent out <> [] <-> Enabled h ctx (Level r) = true)).
Proof.
  assert (forall fuel r m out, recognized (Level r) ->
            Handle LogValue fuel h ctx r m = Ret out ->
            (sent out <> [] <-> Enabled h ctx (Level r) = true)) as Hagree.
  { intros fuel r m out Hr Hh. apply Handle_inv in Hh. rewrite Enabled_sinkLevel.
    destruct (sinkLevel (Level r)) as [zl|] eqn:E; [|by apply sinkLevel_None in E].
    destruct Hh as [_ Hs]. destruct (should (log h) zl).
    - destruct Hs as [e ->]. done.
    - rewrite Hs. done. }
  split_and!; try (rewrite Enabled_sinkLevel; reflexivity).
  - intros level Hn. rewrite Enabled_sinkLevel.
    apply sinkLevel_None in Hn. by rewrite Hn.
  - exact Hagree.
  - intros r m gs Hr Hv Hgs Hra.
    destruct (Handle_returns LogValue h ctx r m gs Hv Hgs Hra) as [n Hn].
    exists n. intros fuel Hf. specialize (Hn fuel Hf).
    assert (exists out, Handle LogValue fuel h ctx r m = Ret out) as [out Hout].
    { destruct (sinkLevel (Level r)) as [zl|]; [|eauto].
      destruct (should (log h) zl); [|eauto]. destruct Hn as [e He]. eauto. }
    exists out. split; [done|]. by eapply Hagree.
Qed.

Lemma level_gating_witness :
  Enabled h_new Background 2 = false /\
  exists n, forall fuel, (n <= fuel)%nat ->
    exists out, Handle noValuer fuel h_ab Background record_z m_ab = Ret out /\
                (sent out <> [] <-> Enabled h_ab Background LevelWarn = true).
Proof.
  destruct (level_gating noValuer h_new Background) as (_ & _ & _ & _ & Hu & _).
  destruct (level_gating noValuer h_ab Background) as (_ & _ & _ & _ & _ & _ & Ht).
  split.
  - apply Hu. unfold recognized, LevelDebug, LevelInfo, LevelWarn, LevelError. lia.
  - apply (Ht record_z m_ab [("", []); ("a", [slog_Int "x" 1]); ("b", [slog_Int "y" 2])]).
    + right. right. left. reflexivity.
    + reflexivity.
    + repeat constructor.
    + repeat constructor.
Defined.

(** ** Handle and the context *)

Lemma AnyContext_Value_ofContext (ctx : Context) (key : anyKey) :
  AnyContext_Value (ofContext ctx) key = Context_Value ctx key.
Proof. induction ctx as [|parent IH k v]; [done|]. simpl. by rewrite IH. Qed.

Lemma slogFieldsFromAnyContext_ofContext (ctx : Context) :
  slogFieldsFromAnyContext (ofContext ctx) = None.
Proof.
  unfold slogFieldsFromAnyContext.
  by rewrite AnyContext_Value_ofContext, Context_Value_slogFieldsStoreKey.
Qed.

(** On a context of the context package, [WithSlogFields] and [Handle] on any
    context are [WithSlogFields] and [Handle]. *)
Lemma WithSlogFieldsOn_ofContext (ctx : Context) (attrs_ : list Attr) (m : mem) :
  WithSlogFieldsOn (ofContext ctx) attrs_ m
  = let* (ctx', m') := WithSlogFields ctx attrs_ m in Ret (ofContext ctx', m').
Proof.
  unfold WithSlogFieldsOn, WithSlogFields.
  by rewrite slogFieldsFromAnyContext_ofContext, slogFieldsFromContext_nil.
Qed.

Section HandleOnFacts.

Variable LogValue : LogValuer -> Value.

(** A context that does not answer the key of the lookup is handled as one of
    the context package. *)
Lemma walkOn_absent (fuel : nat) (ctx : AnyContext) (ctx0 : Context) r m gs :
  slogFieldsFromAnyContext ctx = None ->
  forall innermost event prev prevName,
    walkOn LogValue fuel ctx r m gs innermost event prev prevName =
    walk LogValue fuel ctx0 r m gs innermost event prev prevName.
Proof.
  intros Hc.
  induction gs as [|current outer IH]; intros innermost event prev prevName; [done|].
  simpl. rewrite Hc, slogFieldsFromContext_nil.
  destruct (String.eqb current.1 ""); [done|].
  destruct (appendAttrs LogValue fuel current.2 Dict); simpl; try done.
  destruct innermost; [destruct (appendAttrs _ _ _ _); simpl; try done|]; apply IH.
Qed.

Lemma handleEventOn_absent (fuel : nat) h (ctx : AnyContext) (ctx0 : Context) r m event :
  slogFieldsFromAnyContext ctx = None ->
  handleEventOn LogValue fuel h ctx r m event = handleEvent LogValue fuel h ctx0 r m event.
Proof.
  intros Hc. unfold handleEventOn, handleEvent.
  destruct (readGroups h m); simpl; try done.
  by rewrite (walkOn_absent fuel ctx ctx0 r m _ Hc).
Qed.

Lemma HandleOn_absent (fuel : nat) h (ctx : AnyContext) (ctx0 : Context) r m :
  slogFieldsFromAnyContext ctx = None ->
  HandleOn LogValue fuel h ctx r m = Handle LogValue fuel h ctx0 r m.
Proof.
  intros Hc. unfold HandleOn, Handle.
  repeat (destruct (Level r =? _);
          [match goal with
           | |- context [Event_Enabled ?e] =>
               destruct e; simpl; [destruct (negb _); [done|]|done]
           end; by apply handleEventOn_absent|]).
  done.
Qed.

Lemma HandleOn_ofContext (fuel : nat) h (ctx : Context) r m :
  HandleOn LogValue fuel h (ofContext ctx) r m = Handle LogValue fuel h ctx r m.
Proof. apply HandleOn_absent, slogFieldsFromAnyContext_ofContext. Qed.

End HandleOnFacts.

(** C9, as stated, fails on a context of the caller's own: with the context
    [ctx_store], which answers the key [slogFieldsStore{}] with a store that
    holds [k = "v"], the new handler sends [k = "v"] after the field of the
    record; with [context.Background()] it sends the field of the record
    alone. *)
Lemma Handle_reads_store_of_caller_context :
  slogFieldsFromAnyContext ctx_store = Some 0%nat /\
  HandleOn noValuer 1 h_new ctx_store record_n m_store
  = Ret (mkOut None
           [mkEmitted (mkEvent zInfoLevel [FInt64 "n" 1; FStr "k" "v"] 0) (Some "hello")]) /\
  HandleOn noValuer 1 h_new (ofContext Background) record_n m_store
  = Ret (mkOut None [mkEmitted (mkEvent zInfoLevel [FInt64 "n" 1] 0) (Some "hello")]) /\
  HandleOn noValuer 1 h_new ctx_store record_n m_store
  <> HandleOn noValuer 1 h_new (ofContext Background) record_n m_store.
Proof. split_and!; [reflexivity|reflexivity|reflexivity|discriminate]. Qed.

(** C9, amended.  What [Handle] returns and sends is the same under any two
    contexts that do not answer the key [slogFieldsStore{}] with a store, and
    under any two sets of stores.  These are the contexts made from
    [context.Background()] by [context.WithValue], and any number of
    [WithSlogFields] calls keeps a context among them: each binds its store
    under [logFieldsCtxKey{}], and [Handle] does after the calls what it did
    before. *)
Theorem Handle_ignores_context_without_store (LogValue : LogValuer -> Value) (fuel : nat)
    (h : ZerologHandler) (r : Record_) :
  (forall (ctx1 ctx2 : AnyContext) (aa : list (list Attr)) (ga : list (list group))
          (st1 st2 : list slogFieldsStore),
     slogFieldsFromAnyContext ctx1 = None ->
     slogFieldsFromAnyContext ctx2 = None ->
     HandleOn LogValue fuel h ctx1 r (mkMem aa ga st1)
     = HandleOn LogValue fuel h ctx2 r (mkMem aa ga st2)) /\
  (forall ctx : Context, slogFieldsFromAnyContext (ofContext ctx) = None) /\
  (forall (ctx : AnyContext) (ass : list (list Attr)) (m : mem),
     slogFieldsFromAnyContext ctx = None ->
     exists ctx' m',
       attachAllOn ctx ass m = Ret (ctx', m') /\
       slogFieldsFromAnyContext ctx' = None /\
       HandleOn LogValue fuel h ctx' r m' = HandleOn LogValue fuel h ctx r m).
Proof.
  assert (forall (ctx1 ctx2 : AnyContext) (m1 m2 : mem),
            slogFieldsFromAnyContext ctx1 = None ->
            slogFieldsFromAnyContext ctx2 = None ->
            attrArrays m1 = attrArrays m2 -> groupArrays m1 = groupArrays m2 ->
            HandleOn LogValue fuel h ctx1 r m1 = HandleOn LogValue fuel h ctx2 r m2) as Hsame.
  { intros ctx1 ctx2 m1 m2 H1 H2 Ha Hg.
    rewrite (HandleOn_absent LogValue fuel h ctx1 Background r _ H1),
      (HandleOn_absent LogValue fuel h ctx2 Background r _ H2).
    apply Handle_view. unfold readGroups, readGroup. by rewrite Ha, Hg. }
  split_and!.
  - intros ctx1 ctx2 aa ga st1 st2 H1 H2. by apply Hsame.
  - apply slogFieldsFromAnyContext_ofContext.
  - intros ctx ass. revert ctx.
    induction ass as [|a rest IH]; intros ctx m Hc.
    + by exists ctx, m.
    + cbn [attachAllOn]. unfold WithSlogFieldsOn. rewrite Hc. cbn [rbind].
      destruct (IH (valueCtxOn ctx logFieldsCtxKey (storePtr (length (stores m))))
                   (mkMem (attrArrays m) (groupArrays m) (stores m ++ [mkStore a])))
        as (ctx' & m' & Ha & Hc' & Hh); [exact Hc|].
      exists ctx', m'. split_and!; [exact Ha|exact Hc'|].
      rewrite Hh. by apply Hsame.
Qed.

Lemma Handle_ignores_context_without_store_witness :
  HandleOn noValuer 1 h_new (ofContext Background) record_n m_new
  = HandleOn noValuer 1 h_new
      (valueCtxOn (callerCtx (fun _ => None)) logFieldsCtxKey (storePtr 0)) record_n
      m_store.
Proof.
  apply (proj1 (Handle_ignores_context_without_store noValuer 1 h_new record_n)
           (ofContext Background)
           (valueCtxOn (callerCtx (fun _ => None)) logFieldsCtxKey (storePtr 0))
           [] [[zeroGroup]] [] [mkStore [slog_String "k" "v"]]);
    reflexivity.
Defined.

(** Attaching fields to the context changes nothing of what [Handle] does. *)
Lemma Handle_after_WithSlogFields (LogValue : LogValuer -> Value) (fuel : nat)
    (h : ZerologHandler) (r : Record_) (ctx ctx' : Context) (attrs_ : list Attr)
    (m m' : mem) :
  WithSlogFields ctx attrs_ m = Ret (ctx', m') ->
  Handle LogValue fuel h ctx' r m' = Handle LogValue fuel h ctx r m.
Proof.
  intros H. apply WithSlogFields_arrays in H as [Ha Hg].
  apply Handle_view. unfold readGroups, readGroup. by rewrite Ha, Hg.
Qed.

(** C10. [appendAttrToEvent] returns, with some fuel, exactly on the
    attributes whose value is finite; it then returns with any larger fuel as
    well, and it never panics. *)
Theorem appendAttrToEvent_returns_iff_finite (LogValue : LogValuer -> Value)
    (attr : Attr) (event : Event) :
  ((exists fuel e', appendAttrToEvent LogValue fuel attr event = Ret e')
   <-> Finite LogValue (Val attr)) /\
  (Finite LogValue (Val attr) ->
   exists n, forall fuel, (n <= fuel)%nat ->
     exists e', appendAttrToEvent LogValue fuel attr event = Ret e') /\
  (forall fuel, appendAttrToEvent LogValue fuel attr event <> Panic).
Proof.
  assert (Finite LogValue (Val attr) ->
          exists n, forall fuel, (n <= fuel)%nat ->
            exists e', appendAttrToEvent LogValue fuel attr event = Ret e') as Hret.
  { intros Hf. destruct (Finite_returns LogValue _ Hf) as [n Hn].
    exists n. intros fuel Hle. destruct attr as [k v]. by apply Hn. }
  split_and!.
  - split.
    + intros (fuel & e' & H). by eapply returns_Finite.
    + intros Hf. destruct (Hret Hf) as [n Hn]. exists n. by apply Hn.
  - exact Hret.
  - intros fuel. apply appendAttrToEvent_no_panic.
Qed.

(** A chain of [v] valuers above an integer is resolved to the end: no bound
    on the number of resolutions. *)
Lemma chainValuer_resolved (v : LogValuer) (k : string) (e : Event) :
  appendAttrToEvent chainValuer (S (S v)) (mkAttr k (LogValuerValue v)) e
  = Ret (Event_Int64 e k 7).
Proof.
  induction v as [|v IH]; [reflexivity|].
  change (appendAttrToEvent chainValuer (S (S (S v))) (mkAttr k (LogValuerValue (S v))) e)
    with (appendAttrToEvent chainValuer (S (S v)) (mkAttr k (LogValuerValue v)) e).
  exact IH.
Qed.

(** A valuer that resolves to itself is never done. *)
Lemma selfValuer_diverges (fuel : nat) (v : LogValuer) (k : string) (e : Event) :
  appendAttrToEvent selfValuer fuel (mkAttr k (LogValuerValue v)) e = OutOfFuel.
Proof. induction fuel as [|fuel IH]; [reflexivity|]. exact IH. Qed.

Lemma appendAttrToEvent_returns_iff_finite_witness :
  exists n, forall fuel, (n <= fuel)%nat ->
    exists e', appendAttrToEvent chainValuer fuel (mkAttr "k" (LogValuerValue 3%nat)) Dict
               = Ret e'.
Proof.
  apply (proj1 (proj2 (appendAttrToEvent_returns_iff_finite chainValuer
                         (mkAttr "k" (LogValuerValue 3%nat)) Dict))).
  simpl. repeat (apply Finite_valuer; simpl). by apply Finite_leaf.
Defined.

(** * Further properties of the code *)

(** ** Projection *)

Section ProjectionMore.

Variable LogValue : LogValuer -> Value.

Lemma addField_extend (e : Event) (f : Field) : addField e f = extend e [f].
Proof. reflexivity. Qed.

(** What an attribute sets, whatever the event: one field under its key, or
    nothing when its value is an error whose value is nil. *)
Lemma appendAttrToEvent_field (fuel : nat) :
  forall (a : Attr) (e e' : Event),
    appendAttrToEvent LogValue fuel a e = Ret e' ->
    if setsField LogValue fuel a
    then exists f, fieldKey f = Key a /\ e' = addField e f /\
                   forall e0, appendAttrToEvent LogValue fuel a e0 = Ret (addField e0 f)
    else e' = e /\ forall e0, appendAttrToEvent LogValue fuel a e0 = Ret e0.
Proof.
  induction fuel as [|fuel IH]; intros [k v] e e' H; [discriminate|].
  cbn [appendAttrToEvent Val Key] in H.
  destruct v as [x| | | | | | | |g|lv];
    try (injection H as <-; eexists; split; [|split; [reflexivity|intros e0; reflexivity]];
         reflexivity).
  - destruct x as [|[|msg_]|]; injection H as <-;
      try (eexists; (split; [|split; [reflexivity|intros e0; reflexivity]]); reflexivity).
    split; [reflexivity|intros e0; reflexivity].
  - match type of H with
    | context [foldM ?f g Dict] => destruct (foldM f g Dict) as [d| |] eqn:E
    end; cbn [rbind] in H; try discriminate.
    injection H as <-. exists (FDict k (buf d)). split; [done|]. split; [done|].
    intros e0. cbn [appendAttrToEvent Val Key]. by rewrite E.
  - apply IH in H.
    change (setsField LogValue (S fuel) (mkAttr k (LogValuerValue lv)))
      with (setsField LogValue fuel (mkAttr k (LogValue lv))).
    destruct (setsField LogValue fuel (mkAttr k (LogValue lv))).
    + destruct H as (f & Hk & -> & Hall). exists f. split; [exact Hk|]. split; [done|].
      intros e0. cbn [appendAttrToEvent Val Key]. apply Hall.
    + destruct H as (-> & Hall). split; [done|].
      intros e0. cbn [appendAttrToEvent Val Key]. apply Hall.
Qed.

Lemma extend_nil (e : Event) : extend e [] = e.
Proof. unfold extend. rewrite app_nil_r. by destruct e. Qed.

Lemma appendAttrs_fields (fuel : nat) (l : list Attr) :
  forall e e' : Event,
    appendAttrs LogValue fuel l e = Ret e' ->
    exists fs, map fieldKey fs = map Key (List.filter (setsField LogValue fuel) l) /\
               e' = extend e fs /\
               forall e0, appendAttrs LogValue fuel l e0 = Ret (extend e0 fs).
Proof.
  unfold appendAttrs. induction l as [|a l IH]; intros e e' H; simpl in H.
  - injection H as <-. exists []. split; [done|]. rewrite extend_nil. split; [done|].
    intros e0. simpl. by rewrite extend_nil.
  - destruct (appendAttrToEvent LogValue fuel a e) as [e1| |] eqn:E; simpl in H;
      try discriminate.
    apply appendAttrToEvent_field in E. cbn [List.filter].
    destruct (setsField LogValue fuel a).
    + destruct E as (f & Hk & -> & Hf).
      apply IH in H as (fs & Hks & -> & Hfs).
      exists (f :: fs). split; [simpl; by rewrite Hk, Hks|]. split.
      * rewrite addField_extend, extend_extend. done.
      * intros e0. simpl. rewrite Hf. simpl. rewrite Hfs.
        by rewrite addField_extend, extend_extend.
    + destruct E as (-> & Hf).
      apply IH in H as (fs & Hks & -> & Hfs).
      exists fs. split; [done|]. split; [done|].
      intros e0. simpl. rewrite Hf. simpl. apply Hfs.
Qed.





End ProjectionMore.

(** X2. An attribute that [appendAttrToEvent] projects sets at most one
    field: none when its value (also one resolved from a valuer) is an error
    whose value is nil, which [Event.AnErr] skips, and otherwise exactly one,
    after the fields the event had and under the key of the attribute.
    Which field does not depend on the event, and level and caller frames of
    the event stay. *)
Theorem appendAttrToEvent_sets_at_most_one_field (LogValue : LogValuer -> Value)
    (fuel : nat) (attr : Attr) (event event' : Event) :
  appendAttrToEvent LogValue fuel attr event = Ret event' ->
  elevel event' = elevel event /\ skipFrame event' = skipFrame event /\
  if isNilValuedError (resolved LogValue fuel (Val attr))
  then buf event' = buf event /\
       forall e0, appendAttrToEvent LogValue fuel attr e0 = Ret e0
  else exists f,
         fieldKey f = Key attr /\
         buf event' = buf event ++ [f] /\
         forall e0, appendAttrToEvent LogValue fuel attr e0 = Ret (addField e0 f).
Proof.
  intros H. apply appendAttrToEvent_field in H. unfold setsField in H.
  destruct (isNilValuedError (resolved LogValue fuel (Val attr))); cbn [negb] in H.
  - destruct H as (-> & Hall). by split_and!.
  - destruct H as (f & Hk & -> & Hall). split_and!; [done|done|].
    exists f. by split_and!.
Qed.

Lemma appendAttrToEvent_sets_at_most_one_field_witness :
  (exists f,
     fieldKey f = "user" /\
     buf (Event_Int64 (Event_Str Dict "a" "b") "user" 7) = [FStr "a" "b"] ++ [f]) /\
  appendAttrToEvent noValuer 1 (mkAttr "err" (AnyValue (anyError nilValuedError)))
    (Event_Str Dict "a" "b") = Ret (Event_Str Dict "a" "b").
Proof.
  split.
  - destruct (appendAttrToEvent_sets_at_most_one_field chainValuer 5
                (mkAttr "user" (LogValuerValue 2%nat)) (Event_Str Dict "a" "b")
                (Event_Int64 (Event_Str Dict "a" "b") "user" 7) eq_refl)
      as (_ & _ & f & Hk & Hb & _).
    exists f. split; [exact Hk|exact Hb].
  - destruct (appendAttrToEvent_sets_at_most_one_field noValuer 1
                (mkAttr "err" (AnyValue (anyError nilValuedError))) Dict Dict eq_refl)
      as (_ & _ & _ & Hall).
    exact (Hall (Event_Str Dict "a" "b")).
Defined.

(** X3. A list of attributes projected onto an event sets, after the fields
    the event had, one field for each attribute that sets one (all but the
    errors whose value is nil), in the order of the list and under the keys
    of those attributes. *)
Theorem appendAttrs_sets_fields_in_order (LogValue : LogValuer -> Value) (fuel : nat)
    (l : list Attr) (event event' : Event) :
  appendAttrs LogValue fuel l event = Ret event' ->
  exists fs,
    buf event' = buf event ++ fs /\
    map fieldKey fs = map Key (List.filter (setsField LogValue fuel) l) /\
    (length fs <= length l)%nat /\
    (forallb (setsField LogValue fuel) l = true -> map fieldKey fs = map Key l).
Proof.
  intros H. apply appendAttrs_fields in H as (fs & Hk & -> & _).
  exists fs. split_and!; [done|done| |].
  - rewrite <- (length_map fieldKey), Hk, length_map. apply List.filter_length_le.
  - intros Hall. rewrite Hk. f_equal. clear Hk.
    induction l as [|a l IH]; [done|]. simpl in *.
    apply andb_prop in Hall as [-> Hl]. by rewrite IH.
Qed.

Lemma appendAttrs_sets_fields_in_order_witness :
  exists fs,
    buf (Event_Dict (Event_Int64 Dict "n" 1) "g" (Event_Str Dict "s" "t")) = [] ++ fs /\
    map fieldKey fs = ["n"; "g"] /\ (length fs <= 3)%nat.
Proof.
  destruct (appendAttrs_sets_fields_in_order noValuer 2
              [slog_Int "n" 1; mkAttr "e" (AnyValue (anyError nilValuedError));
               mkAttr "g" (GroupValue [slog_String "s" "t"])]
              Dict (Event_Dict (Event_Int64 Dict "n" 1) "g" (Event_Str Dict "s" "t")) eq_refl)
    as (fs & Hb & Hk & Hl & _).
  exists fs. split_and!; [exact Hb|exact Hk|exact Hl].
Defined.

(** ** The structure Handle renders *)

Lemma nest_snoc (named : list (string * list Field)) (n : string) (fs inner : list Field) :
  nest (named ++ [(n, fs)]) inner = nest named [FDict n (fs ++ inner)].
Proof.
  induction named as [|g named IH]; simpl; [done|]. by rewrite IH.
Qed.

Lemma extend_app (e : Event) (fs1 fs2 : list Field) :
  extend e (fs1 ++ fs2) = extend (extend e fs1) fs2.
Proof. by rewrite extend_extend. Qed.

Section HandleMore.

Variable LogValue : LogValuer -> Value.

Lemma fieldsOf_appendAttrs (fuel : nat) (l : list Attr) (fs : list Field) (e : Event) :
  fieldsOf LogValue fuel l = Ret fs -> appendAttrs LogValue fuel l e = Ret (extend e fs).
Proof.
  unfold fieldsOf. rewrite (appendAttrs_extend LogValue fuel l e).
  destruct (appendAttrs LogValue fuel l Dict) as [d| |]; simpl; try discriminate.
  by intros [= <-].
Qed.

Lemma handleEvent_attach (fuel : nat) h ctx r m event :
  handleEvent LogValue fuel h ctx r m event =
  let event1 :=
    if negb (SkipTime (opts h)) && negb (Time_IsZero (rTime r))
    then Event_Time event TimestampFieldName (Time_UTC (rTime r)) else event in
  let event2 :=
    if negb (PC r =? 0) then Event_CallerSkipFrame event1 (int_of_uintptr (PC r))
    else event1 in
  let* gs := readGroups h m in
  let* res := walk LogValue fuel ctx r m (rev gs) true event2 None "" in
  Ret (mkOut None [mkEmitted (attach res.1.1 res.1.2 res.2) (message r)]).
Proof.
  unfold handleEvent, message. cbv zeta.
  destruct (readGroups h m) as [gs| |]; cbn [rbind]; try done.
  destruct (walk _ _ _ _ _ _ _ _ _ _) as [[[e1 prev] prevName]| |]; cbn [rbind]; try done.
  by destruct (String.eqb (Message r) "").
Qed.

(** The loop from a named group outward, a dictionary pending. *)
Lemma walk_outer (fuel : nat) ctx r m (a0 : list Attr) (f0 : list Field) :
  fieldsOf LogValue fuel a0 = Ret f0 ->
  forall (pre : list (string * list Attr)) (nfs : list (string * list Field)),
    Forall2 (fun g p => projGroup LogValue fuel g = Ret p) pre nfs ->
    Forall (fun g : string * list Attr => g.1 <> "") pre ->
    forall (event prev : Event) (pn : string), pn <> "" ->
      exists res,
        walk LogValue fuel ctx r m (rev pre ++ [("", a0)]) false event (Some prev) pn
        = Ret res /\
        attach res.1.1 res.1.2 res.2 = extend event (f0 ++ nest nfs [FDict pn (buf prev)]).
Proof.
  intros H0 pre. induction pre as [|g pre IH] using rev_ind;
    intros nfs Hp Hn event prev pn Hpn.
  - apply Forall2_nil_inv_l in Hp as ->. cbn [rev app walk fst snd].
    rewrite String.eqb_refl, (fieldsOf_appendAttrs _ _ _ _ H0), slogFieldsFromContext_nil.
    cbn [rbind]. eexists. split; [reflexivity|]. cbn [fst snd attach nest].
    apply String.eqb_neq in Hpn. rewrite Hpn. cbn [negb].
    unfold Event_Dict. by rewrite addField_extend, extend_extend.
  - apply Forall2_app_inv_l in Hp as (nfs' & k & Hp' & Hk & ->).
    apply Forall2_cons_inv_l in Hk as (p & k' & Hg & Hk' & ->).
    apply Forall2_nil_inv_l in Hk' as ->.
    rewrite Forall_app, Forall_singleton in Hn. destruct Hn as [Hn' Hg1].
    rewrite rev_app_distr. cbn [rev app walk].
    pose proof Hg1 as Hg2. apply String.eqb_neq in Hg2. rewrite Hg2.
    unfold projGroup in Hg.
    destruct (fieldsOf LogValue fuel g.2) as [fs| |] eqn:Ef; cbn [rbind] in Hg;
      try discriminate.
    injection Hg as <-.
    rewrite (fieldsOf_appendAttrs _ _ _ Dict Ef). cbn [rbind].
    destruct (IH nfs' Hp' Hn' event (Event_Dict (extend Dict fs) pn prev) g.1 Hg1)
      as (res & Hw & Ha).
    exists res. split; [exact Hw|]. rewrite Ha, nest_snoc. done.
Qed.

(** The whole loop on the groups of a handler in shape. *)
Lemma walk_renders (fuel : nat) ctx r m (a0 : list Attr) (f0 fr : list Field)
    (named : list (string * list Attr)) (nfs : list (string * list Field)) (event : Event) :
  fieldsOf LogValue fuel a0 = Ret f0 ->
  fieldsOf LogValue fuel (Attrs r) = Ret fr ->
  Forall2 (fun g p => projGroup LogValue fuel g = Ret p) named nfs ->
  Forall (fun g : string * list Attr => g.1 <> "") named ->
  exists res,
    walk LogValue fuel ctx r m (rev (("", a0) :: named)) true event None "" = Ret res /\
    attach res.1.1 res.1.2 res.2 = extend event (f0 ++ nest nfs fr).
Proof.
  intros H0 Hr Hp Hn. cbn [rev].
  destruct named as [|g named _] using rev_ind.
  - apply Forall2_nil_inv_l in Hp as ->. cbn [rev app walk fst snd].
    rewrite String.eqb_refl, (fieldsOf_appendAttrs _ _ _ _ H0). cbn [rbind].
    rewrite (fieldsOf_appendAttrs _ _ _ _ Hr), slogFieldsFromContext_nil. cbn [rbind].
    eexists. split; [reflexivity|]. cbn [fst snd attach nest]. by rewrite extend_extend.
  - apply Forall2_app_inv_l in Hp as (nfs' & k & Hp' & Hk & ->).
    apply Forall2_cons_inv_l in Hk as (p & k' & Hg & Hk' & ->).
    apply Forall2_nil_inv_l in Hk' as ->.
    rewrite Forall_app, Forall_singleton in Hn. destruct Hn as [Hn' Hg1].
    rewrite rev_app_distr. cbn [rev app walk].
    pose proof Hg1 as Hg2. apply String.eqb_neq in Hg2. rewrite Hg2.
    unfold projGroup in Hg.
    destruct (fieldsOf LogValue fuel g.2) as [fs| |] eqn:Ef; cbn [rbind] in Hg;
      try discriminate.
    injection Hg as <-.
    rewrite (fieldsOf_appendAttrs _ _ _ Dict Ef). cbn [rbind].
    rewrite (fieldsOf_appendAttrs _ _ _ _ Hr). cbn [rbind].
    destruct (walk_outer fuel ctx r m a0 f0 H0 named nfs' Hp' Hn' event
                (extend (extend Dict fs) fr) g.1 Hg1) as (res & Hw & Ha).
    exists res. split; [exact Hw|]. rewrite Ha, nest_snoc. done.
Qed.

Lemma Handle_renders_shape (fuel : nat) h ctx r m (zl : zLevel) (a0 : list Attr)
    (named : list (string * list Attr)) (f0 fr : list Field)
    (nfs : list (string * list Field)) :
  readGroups h m = Ret (("", a0) :: named) ->
  Forall (fun g : string * list Attr => g.1 <> "") named ->
  sinkLevel (Level r) = Some zl ->
  should (log h) zl = true ->
  fieldsOf LogValue fuel a0 = Ret f0 ->
  mapM (projGroup LogValue fuel) named = Ret nfs ->
  fieldsOf LogValue fuel (Attrs r) = Ret fr ->
  Handle LogValue fuel h ctx r m
  = Ret (mkOut None
           [mkEmitted (mkEvent zl (stamp h r ++ f0 ++ nest nfs fr) (callerSkip r))
              (message r)]).
Proof.
  intros Hv Hn Hl Hs H0 Hp Hr. apply mapM_Forall2 in Hp.
  rewrite (Handle_supported _ _ _ _ _ _ zl Hl), Hs, handleEvent_attach. cbv zeta.
  rewrite Hv. cbn [rbind].
  match goal with
  | |- context [walk LogValue fuel ctx r m _ true ?e0 None ""] =>
      destruct (walk_renders fuel ctx r m a0 f0 fr named nfs e0 H0 Hr Hp Hn)
        as (res & -> & Ha)
  end.
  cbn [rbind]. rewrite Ha. unfold stamp, callerSkip, extend.
  by destruct (negb (SkipTime (opts h)) && negb (Time_IsZero (rTime r))),
    (negb (PC r =? 0)).
Qed.

End HandleMore.

Section HandleCompare.

Variable LogValue : LogValuer -> Value.

(** [Handle] looks at a handler through its logger, its options and its
    group sequence only. *)
Lemma Handle_same_view (fuel : nat) (h h' : ZerologHandler) (ctx ctx' : Context)
    (r : Record_) (m m' : mem) :
  log h = log h' -> opts h = opts h' -> readGroups h m = readGroups h' m' ->
  Handle LogValue fuel h ctx r m = Handle LogValue fuel h' ctx' r m'.
Proof.
  intros Hl Ho Hv. destruct (sinkLevel (Level r)) as [zl|] eqn:E.
  - rewrite !(Handle_supported _ _ _ _ _ _ zl E), Hl. destruct (should _ _); [|done].
    rewrite !handleEvent_attach. cbv zeta. rewrite Ho, Hv.
    destruct (readGroups h' m'); cbn [rbind]; try done.
    by rewrite (walk_indep LogValue fuel ctx ctx' r m m').
  - by rewrite !Handle_unsupported.
Qed.


(** Past the innermost group the loop does not look at the record. *)
Lemma walk_outer_record (fuel : nat) ctx (r r' : Record_) m gs :
  forall event prev prevName,
    walk LogValue fuel ctx r m gs false event prev prevName
    = walk LogValue fuel ctx r' m gs false event prev prevName.
Proof.
  induction gs as [|current outer IH]; intros event prev prevName; [done|].
  cbn [walk]. destruct (String.eqb current.1 ""); [done|].
  destruct (appendAttrs LogValue fuel current.2 Dict); cbn [rbind]; [apply IH|done|done].
Qed.


End HandleCompare.

(** ** Records without empty groups *)

Lemma dropEmptyGroups_app (l1 l2 : list Attr) :
  dropEmptyGroups (l1 ++ l2) = dropEmptyGroups l1 ++ dropEmptyGroups l2.
Proof. apply List.filter_app. Qed.

Lemma dropEmptyGroups_id (l : list Attr) :
  Forall (fun a => isEmptyGroup (Val a) = false) l -> dropEmptyGroups l = l.
Proof.
  unfold dropEmptyGroups. induction 1 as [|a l Ha Hl IH]; [done|].
  simpl. by rewrite Ha, IH.
Qed.


(** ** Handle on the handlers the package builds *)

(** X1. For a handler whose groups are an unnamed one followed by named ones
    (as [NewZerologHandler], [WithAttrs] and [WithGroup] build them) and a
    record at an enabled level, [Handle] sends exactly one event: at the sink
    level of the record, with the timestamp if any, then the fields of the
    unnamed group, then one dictionary per named group nested in opening
    order, the fields of the record inside the innermost scope; the caller
    frames are those of the record and the message is sent unless empty. *)
Theorem Handle_renders_nested (LogValue : LogValuer -> Value) (fuel : nat)
    (h : ZerologHandler) (ctx : Context) (r : Record_) (m : mem) (zl : zLevel)
    (a0 : list Attr) (named : list (string * list Attr)) (f0 fr : list Field)
    (nfs : list (string * list Field)) :
  readGroups h m = Ret (("", a0) :: named) ->
  Forall (fun g : string * list Attr => g.1 <> "") named ->
  sinkLevel (Level r) = Some zl ->
  should (log h) zl = true ->
  fieldsOf LogValue fuel a0 = Ret f0 ->
  mapM (projGroup LogValue fuel) named = Ret nfs ->
  fieldsOf LogValue fuel (Attrs r) = Ret fr ->
  Handle LogValue fuel h ctx r m
  = Ret (mkOut None
           [mkEmitted (mkEvent zl (stamp h r ++ f0 ++ nest nfs fr) (callerSkip r))
              (message r)]).
Proof.
  intros Hv Hn Hl Hs H0 Hp Hr. apply mapM_Forall2 in Hp.
  rewrite (Handle_supported _ _ _ _ _ _ zl Hl), Hs, handleEvent_attach. cbv zeta.
  rewrite Hv. cbn [rbind].
  match goal with
  | |- context [walk LogValue fuel ctx r m _ true ?e0 None ""] =>
      destruct (walk_renders LogValue fuel ctx r m a0 f0 fr named nfs e0 H0 Hr Hp Hn)
        as (res & -> & Ha)
  end.
  cbn [rbind]. rewrite Ha. unfold stamp, callerSkip, extend.
  by destruct (negb (SkipTime (opts h)) && negb (Time_IsZero (rTime r))),
    (negb (PC r =? 0)).
Qed.

Lemma Handle_renders_nested_witness :
  Handle chainValuer 4 h_ab Background
    (mkRecord (mkTime 9 "Local") "" LevelError 3
       [mkAttr "v" (LogValuerValue 1%nat); slog_String "s" "t"]) m_ab
  = Ret (mkOut None
      [mkEmitted
         (mkEvent zErrorLevel
            [FTime "time" (mkTime 9 "UTC");
             FDict "a" [FInt64 "x" 1;
                        FDict "b" [FInt64 "y" 2; FInt64 "v" 7; FStr "s" "t"]]] 3)
         None]).
Proof.
  exact (Handle_renders_nested chainValuer 4 h_ab Background
           (mkRecord (mkTime 9 "Local") "" LevelError 3
              [mkAttr "v" (LogValuerValue 1%nat); slog_String "s" "t"])
           m_ab zErrorLevel []
           [("a", [slog_Int "x" 1]); ("b", [slog_Int "y" 2])] []
           [FInt64 "v" 7; FStr "s" "t"]
           [("a", [FInt64 "x" 1]); ("b", [FInt64 "y" 2])]
           eq_refl ltac:(repeat constructor; discriminate)
           eq_refl eq_refl eq_refl eq_refl eq_refl).
Defined.

(** X10. [NewZerologHandler] returns, in any memory and without changing what
    the memory held, a handler that handles a record at an enabled level by
    sending one event with the timestamp, if any, and the fields of the
    record at the top level. *)
Theorem new_handler_renders_flat (LogValue : LogValuer -> Value) (fuel : nat)
    (l : Logger) (o : option HandlerOptions) (m : mem) (ctx : Context) (r : Record_)
    (zl : zLevel) (fr : list Field) :
  sinkLevel (Level r) = Some zl ->
  should l zl = true ->
  fieldsOf LogValue fuel (Attrs r) = Ret fr ->
  exists h m',
    NewZerologHandler l o m = Ret (h, m') /\
    frozen m m' /\
    opts h = match o with Some o' => o' | None => mkOptions false end /\
    Handle LogValue fuel h ctx r m'
    = Ret (mkOut None
             [mkEmitted (mkEvent zl (stamp h r ++ fr) (callerSkip r)) (message r)]).
Proof.
  intros Hl Hs Hr.
  destruct (NewZerologHandler_exact l o m) as (h & m' & Hn & Hv & Hlog & Hf & Ho).
  exists h, m'. split_and!; try done.
  rewrite (Handle_renders_shape LogValue fuel h ctx r m' zl [] [] [] fr []); try done.
  by rewrite Hlog.
Qed.

Lemma new_handler_renders_flat_witness :
  exists h m',
    NewZerologHandler allLevels (Some (mkOptions true)) m_ab = Ret (h, m') /\
    Handle noValuer 1 h Background
      (mkRecord (mkTime 9 "Local") "hi" LevelDebug 0 [slog_Int "n" 1]) m'
    = Ret (mkOut None [mkEmitted (mkEvent zDebugLevel [FInt64 "n" 1] 0) (Some "hi")]).
Proof.
  destruct (new_handler_renders_flat noValuer 1 allLevels (Some (mkOptions true)) m_ab
              Background (mkRecord (mkTime 9 "Local") "hi" LevelDebug 0 [slog_Int "n" 1])
              zDebugLevel [FInt64 "n" 1] eq_refl eq_refl eq_refl)
    as (h & m' & Hn & _ & Ho & Hh).
  exists h, m'. split; [exact Hn|]. rewrite Hh. unfold stamp. by rewrite Ho.
Defined.



(** ** Derivation *)

Lemma wellShaped_snoc_attrs (pre : list (string * list Attr)) (n : string)
    (l l' : list Attr) :
  wellShaped (pre ++ [(n, l)]) -> wellShaped (pre ++ [(n, l')]).
Proof.
  destruct pre as [|g pre]; simpl; [done|].
  rewrite !Forall_app, !Forall_singleton. done.
Qed.

Lemma wellShaped_snoc_group (gs : list (string * list Attr)) (g : string) :
  g <> "" -> wellShaped gs -> wellShaped (gs ++ [(g, [])]).
Proof.
  intros Hg. destruct gs as [|g0 named]; simpl; [done|].
  intros [H0 Hn]. split; [done|]. rewrite Forall_app, Forall_singleton. done.
Qed.

(** X5. On a handler without any group, as the zero [ZerologHandler] is,
    [WithAttrs] panics (it indexes the groups at -1), whatever the
    attributes; [WithGroup] with a name returns a handler that holds that
    group alone. *)
Theorem WithAttrs_panics_without_group (h : ZerologHandler) (A : list Attr) (g : string)
    (m : mem) :
  readGroups h m = Ret [] ->
  WithAttrs h A m = Panic /\
  (g <> "" ->
   exists h3 m3, WithGroup h g m = Ret (h3, m3) /\ readGroups h3 m3 = Ret [(g, [])]).
Proof.
  intros Hv. split; [by apply WithAttrs_no_group|].
  intros Hg. exact (WithGroup_exact h g m [] Hg Hv).
Qed.

Lemma WithAttrs_panics_without_group_witness :
  WithAttrs h_zero [slog_Int "n" 1] emptyMem = Panic /\
  exists h3 m3,
    WithGroup h_zero "g" emptyMem = Ret (h3, m3) /\ readGroups h3 m3 = Ret [("g", [])].
Proof.
  destruct (WithAttrs_panics_without_group h_zero [slog_Int "n" 1] "g" emptyMem eq_refl)
    as [Hp Hg].
  split; [exact Hp|]. apply Hg. discriminate.
Defined.

(** X6. The shape of the group sequence, an unnamed group followed by named
    ones, is kept by derivation: on a handler in that shape [WithAttrs] and
    [WithGroup] return, with any attributes and any name, a handler in that
    shape; [WithAttrs] keeps the number of groups, [WithGroup] adds one,
    unless the name is empty. *)
Theorem derivation_keeps_shape (h : ZerologHandler) (A : list Attr) (g : string)
    (m : mem) (gs : list (string * list Attr)) :
  readGroups h m = Ret gs ->
  wellShaped gs ->
  (exists h2 m2 gs2,
     WithAttrs h A m = Ret (h2, m2) /\ readGroups h2 m2 = Ret gs2 /\
     wellShaped gs2 /\ length gs2 = length gs) /\
  (exists h3 m3 gs3,
     WithGroup h g m = Ret (h3, m3) /\ readGroups h3 m3 = Ret gs3 /\
     wellShaped gs3 /\
     length gs3 = (length gs + (if String.eqb g "" then 0 else 1))%nat).
Proof.
  intros Hv Hs. split.
  - destruct gs as [|c pre _] using rev_ind; [done|]. destruct c as [n l].
    destruct (WithAttrs_exact h A m pre n l Hv) as (h2 & m2 & Ha & V2).
    exists h2, m2, (pre ++ [(n, l ++ A)]). split_and!; try done.
    + by eapply wellShaped_snoc_attrs.
    + by rewrite !length_app.
  - destruct (String.eqb g "") eqn:Eg.
    + apply String.eqb_eq in Eg as ->. exists h, m, gs. split_and!; try done; lia.
    + apply String.eqb_neq in Eg.
      destruct (WithGroup_exact h g m gs Eg Hv) as (h3 & m3 & Hw & V3).
      exists h3, m3, (gs ++ [(g, [])]). split_and!; try done.
      * by apply wellShaped_snoc_group.
      * by rewrite length_app.
Qed.

Lemma derivation_keeps_shape_witness :
  (exists h2 m2 gs2,
     WithAttrs h_ab [slog_Int "n" 1] m_ab = Ret (h2, m2) /\ readGroups h2 m2 = Ret gs2 /\
     wellShaped gs2 /\ length gs2 = 3%nat) /\
  (exists h3 m3 gs3,
     WithGroup h_ab "c" m_ab = Ret (h3, m3) /\ readGroups h3 m3 = Ret gs3 /\
     wellShaped gs3 /\ length gs3 = 4%nat).
Proof.
  apply (derivation_keeps_shape h_ab [slog_Int "n" 1] "c" m_ab
           [("", []); ("a", [slog_Int "x" 1]); ("b", [slog_Int "y" 2])] eq_refl).
  split; [reflexivity|]. repeat constructor; discriminate.
Defined.

(** X7. Attributes added in two calls of [WithAttrs] are the attributes added
    in one call with the two lists in a row: the handlers hold the same group
    sequence and [Handle] gives the same with either. *)
Theorem WithAttrs_twice_is_once (LogValue : LogValuer -> Value) (h : ZerologHandler)
    (A B : list Attr) (m : mem) (gs : list (string * list Attr)) (n : string)
    (l : list Attr) :
  readGroups h m = Ret (gs ++ [(n, l)]) ->
  exists h1 m1 h2 m2 h' m',
    WithAttrs h A m = Ret (h1, m1) /\
    WithAttrs h1 B m1 = Ret (h2, m2) /\
    WithAttrs h (A ++ B) m = Ret (h', m') /\
    readGroups h2 m2 = Ret (gs ++ [(n, l ++ A ++ B)]) /\
    readGroups h' m' = Ret (gs ++ [(n, l ++ A ++ B)]) /\
    forall fuel ctx r,
      Handle LogValue fuel h2 ctx r m2 = Handle LogValue fuel h' ctx r m'.
Proof.
  intros Hv.
  destruct (WithAttrs_exact h A m gs n l Hv) as (h1 & m1 & H1 & V1).
  destruct (WithAttrs_exact h1 B m1 gs n (l ++ A) V1) as (h2 & m2 & H2 & V2).
  destruct (WithAttrs_exact h (A ++ B) m gs n l Hv) as (h' & m' & H' & V').
  pose proof (WithAttrs_frozen _ _ _ _ _ H1) as (_ & L1 & O1 & _).
  pose proof (WithAttrs_frozen _ _ _ _ _ H2) as (_ & L2 & O2 & _).
  pose proof (WithAttrs_frozen _ _ _ _ _ H') as (_ & L' & O' & _).
  rewrite <- app_assoc in V2.
  exists h1, m1, h2, m2, h', m'. split_and!; try done.
  intros fuel ctx r. apply Handle_same_view; congruence.
Qed.

Lemma WithAttrs_twice_is_once_witness :
  exists h1 m1 h2 m2 h' m',
    WithAttrs h_ab [slog_Int "p" 1] m_ab = Ret (h1, m1) /\
    WithAttrs h1 [slog_Int "q" 2] m1 = Ret (h2, m2) /\
    WithAttrs h_ab [slog_Int "p" 1; slog_Int "q" 2] m_ab = Ret (h', m') /\
    Handle noValuer 1 h2 Background record_z m2
    = Handle noValuer 1 h' Background record_z m'.
Proof.
  destruct (WithAttrs_twice_is_once noValuer h_ab [slog_Int "p" 1] [slog_Int "q" 2] m_ab
              [("", []); ("a", [slog_Int "x" 1])] "b" [slog_Int "y" 2] eq_refl)
    as (h1 & m1 & h2 & m2 & h' & m' & H1 & H2 & H' & _ & _ & Hh).
  exists h1, m1, h2, m2, h', m'. split_and!; first [done | apply Hh].
Defined.

(** X8. With the hints [WithAttrs] and [WithGroup] pass (room for no or one
    more group, and for the attributes of a list), [clone] returns, on every
    handler whose groups can be read, a handler with the same logger, options
    and group sequence, whose group array is new and has room for the groups
    asked for; nothing the memory held is changed. *)
Theorem clone_copies_groups (h : ZerologHandler) (addGroupsCap : nat) (A : list Attr)
    (m : mem) (gs : list (string * list Attr)) :
  (addGroupsCap <= 1)%nat ->
  readGroups h m = Ret gs ->
  exists newh m',
    clone h addGroupsCap (length A) m = Ret (newh, m') /\
    readGroups newh m' = Ret gs /\
    frozen m m' /\
    log newh = log h /\ opts newh = opts h /\
    ptr (groups newh) = length (groupArrays m) /\
    len (groups newh) = length gs /\
    cap (groups newh) = (length gs + addGroupsCap)%nat.
Proof.
  intros _ Hv. pose proof (clone_exact h addGroupsCap (length A) m gs Hv) as Hc.
  eexists _, _. split; [exact Hc|].
  apply clone_cloning in Hc as ([Ha Hg Hs _ _] & _). cbn [groups log opts ptr len cap].
  split_and!; try done.
  unfold readGroups. cbn [groups groupArrays].
  rewrite (readSlice_at _ _
             (clonedGroups (length (attrArrays m)) (Z.of_nat (length gs) - 1)
                (length A) 0 gs) (replicate addGroupsCap zeroGroup)).
  - cbn [rbind].
    pose proof (read_clonedGroups (attrArrays m)
                  (groupArrays m ++
                     [clonedGroups (length (attrArrays m)) (Z.of_nat (length gs) - 1)
                        (length A) 0 gs ++ replicate addGroupsCap zeroGroup])
                  (stores m) (Z.of_nat (length gs) - 1) (length A) gs [] []) as H.
    simpl in H. rewrite app_nil_r in H. exact H.
  - simpl. by apply list_lookup_middle.
  - simpl. apply length_clonedGroups.
Qed.

Lemma clone_copies_groups_witness :
  exists newh m',
    clone h_ab 1 2 m_ab = Ret (newh, m') /\
    readGroups newh m' = Ret [("", []); ("a", [slog_Int "x" 1]); ("b", [slog_Int "y" 2])] /\
    frozen m_ab m' /\ cap (groups newh) = 4%nat.
Proof.
  destruct (clone_copies_groups h_ab 1 [slog_Int "p" 1; slog_Int "q" 2] m_ab
              [("", []); ("a", [slog_Int "x" 1]); ("b", [slog_Int "y" 2])]
              ltac:(lia) eq_refl)
    as (newh & m' & Hc & Hv & Hf & _ & _ & _ & _ & Hcap).
  exists newh, m'. by split_and!.
Defined.

(** ** The field store *)

Lemma AnyContext_Value_WithValue (ctx : AnyContext) (v : ctxVal) (key : anyKey) :
  key <> comparableKey logFieldsCtxKey ->
  AnyContext_Value (valueCtxOn ctx logFieldsCtxKey v) key = AnyContext_Value ctx key.
Proof.
  intros Hk. simpl. destruct key as [[|id]|]; simpl; try done.
Qed.

(** X9. Any number of [WithSlogFields] calls in a row, from any context.  On
    a context that does not answer the key [slogFieldsStore{}] with a store
    (as none made from [context.Background()] by [context.WithValue] does),
    each call puts its attributes into a store of its own, after the stores
    there were and without changing them or any array; the answers to every
    key but [logFieldsCtxKey{}] are as in the first context; under that key
    the last context holds the store of the last call, with the attributes of
    that call alone.  On a context of the caller's own that answers the key
    [slogFieldsStore{}] with a store, every call returns that context, and
    the attributes of all calls are appended, in order, to that one store. *)
Theorem WithSlogFields_calls_in_a_row (ctx : AnyContext) (ass : list (list Attr))
    (m : mem) :
  (slogFieldsFromAnyContext ctx = None ->
   exists ctx' m',
     attachAllOn ctx ass m = Ret (ctx', m') /\
     stores m' = stores m ++ map mkStore ass /\
     attrArrays m' = attrArrays m /\ groupArrays m' = groupArrays m /\
     (forall key, key <> comparableKey logFieldsCtxKey ->
                  AnyContext_Value ctx' key = AnyContext_Value ctx key) /\
     match last ass with
     | Some attrs_ =>
         exists p, AnyContext_Value ctx' (comparableKey logFieldsCtxKey) = Some (storePtr p) /\
                   stores m' !! p = Some (mkStore attrs_)
     | None => ctx' = ctx
     end) /\
  (forall p st,
     slogFieldsFromAnyContext ctx = Some p ->
     stores m !! p = Some st ->
     exists m',
       attachAllOn ctx ass m = Ret (ctx, m') /\
       stores m' = <[p := mkStore (fields st ++ concat ass)]> (stores m) /\
       attrArrays m' = attrArrays m /\ groupArrays m' = groupArrays m).
Proof.
  split.
  - revert ctx m.
    induction ass as [|a rest IH]; intros ctx m Hc.
    + exists ctx, m. simpl. by rewrite app_nil_r.
    + cbn [attachAllOn]. unfold WithSlogFieldsOn. rewrite Hc. cbn [rbind].
      destruct (IH (valueCtxOn ctx logFieldsCtxKey (storePtr (length (stores m))))
                   (mkMem (attrArrays m) (groupArrays m) (stores m ++ [mkStore a])))
        as (ctx' & m' & Ha & Hs & Haa & Hga & Hk & Hl).
      { unfold slogFieldsFromAnyContext in *. by rewrite AnyContext_Value_WithValue. }
      exists ctx', m'. cbn [stores attrArrays groupArrays] in *.
      split_and!; try done.
      * rewrite Hs, <- app_assoc. done.
      * intros key Hkey. by rewrite Hk, AnyContext_Value_WithValue.
      * destruct rest as [|b rest'].
        -- simpl in Hl. subst ctx'. simpl in Ha. injection Ha as <-. simpl.
           exists (length (stores m)). split; [done|]. by apply list_lookup_middle.
        -- change (last (a :: b :: rest')) with (last (b :: rest')).
           destruct (last (b :: rest')) eqn:E; [exact Hl|].
           by apply last_None in E.
  - revert m.
    induction ass as [|a rest IH]; intros m p st Hc Hp.
    + exists m. simpl. rewrite app_nil_r. split_and!; try done.
      destruct st as [fs]. simpl. by rewrite list_insert_id.
    + cbn [attachAllOn]. unfold WithSlogFieldsOn. rewrite Hc, Hp. cbn [rbind].
      destruct (IH (mkMem (attrArrays m) (groupArrays m)
                      (<[p := mkStore (fields st ++ a)]> (stores m)))
                   p (mkStore (fields st ++ a)) Hc)
        as (m' & Ha & Hs & Haa & Hga).
      { cbn [stores]. apply list_lookup_insert_eq. by eapply lookup_lt_Some. }
      exists m'. cbn [stores attrArrays groupArrays fields] in *.
      split_and!; try done.
      rewrite Hs, list_insert_insert_eq. simpl. by rewrite <- app_assoc.
Qed.

Lemma WithSlogFields_calls_in_a_row_witness :
  (exists ctx' m',
     attachAllOn (ofContext Background) [[slog_Int "a" 1]; [slog_Int "b" 2]] m_new
     = Ret (ctx', m') /\
     stores m' = [mkStore [slog_Int "a" 1]; mkStore [slog_Int "b" 2]]) /\
  (exists m',
     attachAllOn ctx_store [[slog_Int "a" 1]; [slog_Int "b" 2]] m_store = Ret (ctx_store, m') /\
     stores m' = [mkStore [slog_String "k" "v"; slog_Int "a" 1; slog_Int "b" 2]]).
Proof.
  split.
  - destruct (proj1 (WithSlogFields_calls_in_a_row (ofContext Background)
                       [[slog_Int "a" 1]; [slog_Int "b" 2]] m_new) eq_refl)
      as (ctx' & m' & Ha & Hs & _).
    exists ctx', m'. split; [exact Ha|exact Hs].
  - destruct (proj2 (WithSlogFields_calls_in_a_row ctx_store
                       [[slog_Int "a" 1]; [slog_Int "b" 2]] m_store)
                0%nat (mkStore [slog_String "k" "v"]) eq_refl eq_refl)
      as (m' & Ha & Hs & _).
    exists m'. split; [exact Ha|exact Hs].
Defined.

(** ** Attributes of the handler and attributes of the record *)

Lemma foldM_app {A B : Type} (f : B -> A -> result B) (l1 l2 : list A) (b : B) :
  foldM f (l1 ++ l2) b = let* b' := foldM f l1 b in foldM f l2 b'.
Proof.
  revert b. induction l1 as [|a l1 IH]; intros b; simpl; [done|].
  destruct (f b a); simpl; auto.
Qed.

Lemma walk_attrs_as_record (LogValue : LogValuer -> Value) (fuel : nat) ctx r m
    (n : string) (l A : list Attr) (outer : list (string * list Attr)) (event : Event) :
  walk LogValue fuel ctx r m ((n, l ++ A) :: outer) true event None ""
  = walk LogValue fuel ctx
      (mkRecord (rTime r) (Message r) (Level r) (PC r) (A ++ Attrs r)) m
      ((n, l) :: outer) true event None "".
Proof.
  cbn [walk fst snd Attrs]. unfold appendAttrs. rewrite !foldM_app.
  rewrite !slogFieldsFromContext_nil.
  destruct (String.eqb n "").
  - destruct (foldM _ l event); cbn [rbind]; try done.
    rewrite ?foldM_app. by destruct (foldM _ A a); cbn [rbind].
  - destruct (foldM _ l Dict); cbn [rbind]; try done.
    rewrite ?foldM_app. destruct (foldM _ A a); cbn [rbind]; try done.
    destruct (foldM _ (Attrs r) a0); cbn [rbind]; try done.
    apply walk_outer_record.
Qed.

(** X11. Attributes given to [WithAttrs], none of them an empty group, are
    handled as if they came first among the attributes of every log call:
    [Handle] with [h.WithAttrs(A)] on the record of a call with the
    attributes [B] gives what [Handle] with [h] gives on the record of that
    call with [A] put before [B].  (A record keeps no empty group, the
    handler keeps every attribute it is given.) *)
Theorem WithAttrs_as_record_attributes (LogValue : LogValuer -> Value)
    (h : ZerologHandler) (A : list Attr) (m : mem)
    (gs : list (string * list Attr)) (n : string) (l : list Attr) :
  readGroups h m = Ret (gs ++ [(n, l)]) ->
  Forall (fun a => isEmptyGroup (Val a) = false) A ->
  exists h2 m2,
    WithAttrs h A m = Ret (h2, m2) /\
    forall fuel ctx t level text pc B,
      Handle LogValue fuel h2 ctx (Record_AddAttrs (NewRecord t level text pc) B) m2
      = Handle LogValue fuel h ctx
          (Record_AddAttrs (NewRecord t level text pc) (A ++ B)) m.
Proof.
  intros Hv HA.
  destruct (WithAttrs_exact h A m gs n l Hv) as (h2 & m2 & Ha & V2).
  pose proof (WithAttrs_frozen _ _ _ _ _ Ha) as (_ & L2 & O2 & _).
  exists h2, m2. split; [exact Ha|]. intros fuel ctx t level text pc B.
  set (r := Record_AddAttrs (NewRecord t level text pc) B).
  assert (Record_AddAttrs (NewRecord t level text pc) (A ++ B)
          = mkRecord (rTime r) (Message r) (Level r) (PC r) (A ++ Attrs r)) as ->.
  { unfold r, Record_AddAttrs, NewRecord. cbn [rTime Message Level PC Attrs app].
    by rewrite dropEmptyGroups_app, (dropEmptyGroups_id A HA). }
  set (r' := mkRecord (rTime r) (Message r) (Level r) (PC r) (A ++ Attrs r)).
  destruct (sinkLevel (Level r)) as [zl|] eqn:E.
  - rewrite (Handle_supported _ _ _ _ _ _ zl E),
      (Handle_supported LogValue fuel h ctx r' m zl E), L2.
    destruct (should (log h) zl); [|done].
    rewrite !handleEvent_attach. cbv zeta. rewrite O2, V2, Hv. cbn [rbind].
    rewrite !rev_app_distr. cbn [rev app].
    change (rTime r') with (rTime r). change (PC r') with (PC r).
    change (message r') with (message r).
    rewrite (walk_indep LogValue fuel ctx ctx r m2 m).
    by rewrite walk_attrs_as_record.
  - rewrite !Handle_unsupported by done. done.
Qed.

Lemma WithAttrs_as_record_attributes_witness :
  exists h2 m2,
    WithAttrs h_ab [slog_Int "p" 1] m_ab = Ret (h2, m2) /\
    Handle noValuer 1 h2 Background
      (Record_AddAttrs (NewRecord (mkTime 0 "") LevelWarn "run" 0) [slog_Int "z" 3]) m2
    = Handle noValuer 1 h_ab Background
        (Record_AddAttrs (NewRecord (mkTime 0 "") LevelWarn "run" 0)
           [slog_Int "p" 1; slog_Int "z" 3]) m_ab.
Proof.
  destruct (WithAttrs_as_record_attributes noValuer h_ab [slog_Int "p" 1] m_ab
              [("", []); ("a", [slog_Int "x" 1])] "b" [slog_Int "y" 2] eq_refl)
    as (h2 & m2 & Ha & Hh).
  { repeat constructor. }
  exists h2, m2. split; [exact Ha|].
  exact (Hh 1%nat Background (mkTime 0 "") LevelWarn "run" 0 [slog_Int "z" 3]).
Defined.
